(** * Index-versus-identity reordering demo: hooks, handlers and history log

    A shallow embedding of the reorder / delete / insert logic of the
    @dnd-kit demonstration application:

    - [src/hooks/useDragAndDrop.js]   (module [UseDragAndDrop])
    - [src/hooks/useHistory.js]       (module [UseHistory])
    - [src/constants/index.js]        (module [Constants])
    - [src/App.refactored.jsx]        (module [AppRefactored])
    - [src/App.jsx]                   (module [App])

    React state is threaded explicitly: a handler takes the state of the
    render in which it was created and returns the state after its
    [setState] calls.  A JavaScript exception is an explicit [Throw]. *)

From stdpp Require Import base numbers list strings pretty gmap.

Open Scope Z_scope.

(** ** JavaScript values and array primitives *)

Module Js.

Inductive Error := TypeError.

(** Outcome of evaluating an expression: a value, or a thrown exception. *)
Inductive completion (A : Type) :=
| Normal (a : A)
| Throw (e : Error).
Arguments Normal {A} a.
Arguments Throw {A} e.

#[global] Instance completion_ret : MRet completion := @Normal.
#[global] Instance completion_bind : MBind completion := λ A B f m,
  match m with
  | Normal a => f a
  | Throw e => Throw e
  end.
#[global] Instance completion_fmap : FMap completion := λ A B f m,
  match m with
  | Normal a => Normal (f a)
  | Throw e => Throw e
  end.

(** A value that may be [undefined]: an array cell, the result of [arr[i]]
    or of [find]. *)
Inductive cell (A : Type) :=
| undefined
| defined (a : A).
Arguments undefined {A}.
Arguments defined {A} a.

(** A reference that may be [null]. *)
Inductive nullable (A : Type) :=
| null
| object (a : A).
Arguments null {A}.
Arguments object {A} a.

#[global] Instance cell_eq_dec `{EqDecision A} : EqDecision (cell A).
Proof. solve_decision. Defined.
#[global] Instance nullable_eq_dec `{EqDecision A} : EqDecision (nullable A).
Proof. solve_decision. Defined.
#[global] Instance defined_inj {A} : Inj (=) (=) (@defined A).
Proof. by injection 1. Qed.

(** Truthiness of an object-or-null / object-or-undefined reference. *)
Definition truthy {A} (c : cell A) : bool :=
  match c with
  | undefined => false
  | defined _ => true
  end.

Section Array.
Context {A : Type}.

(** [arr.length] *)
Definition length (arr : list A) : Z := Z.of_nat (List.length arr).

(** Relative-index normalisation shared by [slice] and [splice]:
    a negative [start] counts from the end, and the result is clamped
    to [0, len]. *)
Definition relativeStart (len start : Z) : Z :=
  if start <? 0 then Z.max (len + start) 0 else Z.min start len.

(** [arr.slice(start)]: a fresh array holding the elements from the
    normalised [start] to the end. *)
Definition slice (arr : list A) (start : Z) : list A :=
  drop (Z.to_nat (relativeStart (length arr) start)) arr.

(** [arr.splice(start, deleteCount, ...items)]: returns the removed
    elements and the array after the in-place update. *)
Definition splice (arr : list A) (start deleteCount : Z) (items : list A)
  : list A * list A :=
  let actualStart := relativeStart (length arr) start in
  let actualDeleteCount :=
    Z.min (Z.max deleteCount 0) (length arr - actualStart) in
  let k := Z.to_nat actualStart in
  let d := Z.to_nat actualDeleteCount in
  (take d (drop k arr), take k arr ++ items ++ drop (k + d)%nat arr).

(** [arr.findIndex(p)], scanning from index [k]. *)
Fixpoint findIndexFrom (p : A → completion bool) (arr : list A) (k : Z)
  : completion Z :=
  match arr with
  | [] => Normal (-1)
  | x :: rest =>
      b ← p x;
      if b : bool then Normal k else findIndexFrom p rest (k + 1)
  end.

Definition findIndex (p : A → completion bool) (arr : list A) : completion Z :=
  findIndexFrom p arr 0.

(** [arr.filter((x, index) => p)], scanning from index [k]. *)
Fixpoint filterFrom (p : A → Z → completion bool) (arr : list A) (k : Z)
  : completion (list A) :=
  match arr with
  | [] => Normal []
  | x :: rest =>
      b ← p x k;
      kept ← filterFrom p rest (k + 1);
      Normal (if b : bool then x :: kept else kept)
  end.

Definition filter (p : A → Z → completion bool) (arr : list A)
  : completion (list A) :=
  filterFrom p arr 0.

End Array.

(** [arr[i]] on an array whose cells may be [undefined]; out of range
    reads give [undefined]. *)
Definition index {A} (arr : list (cell A)) (i : Z) : cell A :=
  if i <? 0 then undefined
  else match arr !! Z.to_nat i with
       | Some c => c
       | None => undefined
       end.

(** [arr.find(p)] on an array of cells. *)
Fixpoint find {A} (p : cell A → completion bool) (arr : list (cell A))
  : completion (cell A) :=
  match arr with
  | [] => Normal undefined
  | x :: rest =>
      b ← p x;
      if b : bool then Normal x else find p rest
  end.

(** [[...arr].reverse()] is list reversal; [reverse] itself updates its
    receiver in place, which [Heap] below makes explicit. *)
Definition reverse {A} (arr : list A) : list A := List.rev arr.

End Js.

Import Js.

(** ** @dnd-kit: the drag-end event and [arrayMove] *)

Module DndKit.

(** [DragEndEvent]: [active] is typed non-null by @dnd-kit/core, [over] is
    [Over | null].  The fields hold [event.active.id] and [event.over.id];
    [R] is the type of identifiers handed to [SortableContext]. *)
Record DragEndEvent (R : Type) := {
  active : R;
  over : nullable R
}.
Arguments active {R} _.
Arguments over {R} _.

(** [arrayMove] of @dnd-kit/sortable (a dependency of the application),
    as published in the package's [utilities/arrayMove]:
<<
    const newArray = array.slice();
    newArray.splice(to < 0 ? newArray.length + to : to, 0,
                    newArray.splice(from, 1)[0]);
    return newArray;
>>
    The first argument of the outer [splice] is evaluated before the inner
    [splice] shortens the copy. *)
Definition arrayMove {A} (array : list (cell A)) (from to : Z)
  : list (cell A) :=
  let newArray := Js.slice array 0 in
  let start := if to <? 0 then Js.length newArray + to else to in
  let '(removed, newArray) := Js.splice newArray from 1 [] in
  let moved := Js.index removed 0 in
  snd (Js.splice newArray start 0 [moved]).
#[global] Arguments arrayMove : simpl never.

End DndKit.

Import DndKit.

(** ** src/constants/index.js *)

Module Constants.

Record VariantTypes := {
  WRONG : string;
  GENERATED : string;
  CORRECT : string;
  ALL : string
}.

Definition VARIANT_TYPES : VariantTypes := {|
  WRONG := "wrong";
  GENERATED := "generated";
  CORRECT := "correct";
  ALL := "all"
|}.

Definition INITIAL_ITEMS : list string :=
  ["Položka A"; "Položka B"; "Položka C"; "Položka D"].

Record UiConstants := {
  DRAG_ACTIVATION_DISTANCE : Z;
  HISTORY_DISPLAY_LIMIT : Z
}.

Definition UI_CONSTANTS : UiConstants := {|
  DRAG_ACTIVATION_DISTANCE := 8;
  HISTORY_DISPLAY_LIMIT := 5
|}.

(** The double-quote character of the message templates. *)
Definition dquote : string := String (Ascii.ascii_of_nat 34) EmptyString.

(** Template-literal conversion of a possibly undefined string. *)
Definition show (c : cell string) : string :=
  match c with
  | undefined => "undefined"
  | defined s => s
  end.

Module MESSAGES.
Definition DELETE_ITEM (value : cell string) (type : string) : string :=
  "Smazána položka " +:+ dquote +:+ show value +:+ dquote.
Definition MOVE_ITEM (from to : Z) : string :=
  "Přesunuto z pozice " +:+ pretty from +:+ " na pozici " +:+ pretty to.
Definition ADD_ITEM (value : string) : string :=
  "Přidána položka " +:+ dquote +:+ value +:+ dquote.
End MESSAGES.

End Constants.

Import Constants.

(** ** Entities *)

Module Item.
Record t := mk { id : string; value : string }.
#[global] Instance eq_dec : EqDecision t.
Proof. solve_decision. Defined.
End Item.

Abbreviation Item := Item.t.

(** [item.id] and [item.value]: property access on [undefined] throws. *)
Definition get_id (item : cell Item) : completion string :=
  match item with
  | undefined => Throw TypeError
  | defined it => Normal (Item.id it)
  end.

Definition get_value (item : cell Item) : completion string :=
  match item with
  | undefined => Throw TypeError
  | defined it => Normal (Item.value it)
  end.

(** ** src/hooks/useHistory.js *)

Module UseHistory.

Record HistoryEntry := {
  type : string;
  message : string;
  timestamp : string;
  warning : bool
}.

#[global] Instance entry_eq_dec : EqDecision HistoryEntry.
Proof. solve_decision. Defined.

(** [now] is the value of [new Date().toLocaleTimeString()] at the call;
    the default [isWarning = false] is written out by the callers. *)
Definition addHistoryEntry (now : string) (type message : string)
  (isWarning : bool) (prevHistory : list HistoryEntry) : list HistoryEntry :=
  let entry := {|
    type := type;
    message := message;
    timestamp := now;
    warning := isWarning
  |} in
  prevHistory ++ [entry].


Definition getRecentHistory (history : list HistoryEntry) : list HistoryEntry :=
  Js.reverse (Js.slice history (- HISTORY_DISPLAY_LIMIT UI_CONSTANTS)).

End UseHistory.

Import UseHistory.

(** ** src/utils/idGenerators.js *)

Module IdGenerators.

(** [generateIncrementalId]: the module-level [idCounter] is threaded. *)
Definition generateIncrementalId (idCounter : Z) : string * Z :=
  ("item-" +:+ pretty (idCounter + 1), idCounter + 1).

(** [createItemWithId]: [generated] is the token returned by the selected
    generator at this call (the random strategies read an external source). *)
Definition createItemWithId (generated : string) (value : string) : Item :=
  {| Item.id := generated; Item.value := value |}.

End IdGenerators.

Import IdGenerators.

(** ** src/hooks/useDragAndDrop.js *)

Module UseDragAndDrop.

(** The optional second argument of the hook.  Without it the references
    of an event are raw positions (numbers); with it they are the string
    ids of [Item]s. *)
Inductive FindIndexById : Type → Type → Type :=
| NoFinder (T : Type) : FindIndexById T Z
| Finder (findIndexById : list (cell Item) → string → completion Z)
  : FindIndexById Item string.

Record DragResult (R : Type) := {
  oldIndex : Z;
  newIndex : Z;
  activeId : R;
  overId : R
}.
Arguments oldIndex {R} _.
Arguments newIndex {R} _.
Arguments activeId {R} _.
Arguments overId {R} _.

(** [a === b] on references of the mode's type. *)
Definition strictEq {T R} (findIndexById : FindIndexById T R) : R → R → bool :=
  match findIndexById with
  | NoFinder _ => Z.eqb
  | Finder _ => String.eqb
  end.

(** [findIndexById ? findIndexById(items, ref) : ref] *)
Definition resolve {T R} (findIndexById : FindIndexById T R)
  : list (cell T) → R → completion Z :=
  match findIndexById with
  | NoFinder _ => λ _ ref, Normal ref
  | Finder f => λ items ref, f items ref
  end.

(** Returns the items after the call (changed only by [setItems(newItems)])
    and the value returned to the caller. *)
Definition handleDragEnd {T R} (findIndexById : FindIndexById T R)
  (items : list (cell T)) (event : DragEndEvent R)
  : completion (list (cell T) * nullable (DragResult R)) :=
  match over event with
  | null => Normal (items, null)
  | object over_id =>
      if strictEq findIndexById (active event) over_id then Normal (items, null)
      else
        oldIndex ← resolve findIndexById items (active event);
        newIndex ← resolve findIndexById items over_id;
        if (oldIndex =? -1) || (newIndex =? -1) then Normal (items, null)
        else
          let newItems := arrayMove items oldIndex newIndex in
          Normal (newItems,
                  object {| oldIndex := oldIndex;
                            newIndex := newIndex;
                            activeId := active event;
                            overId := over_id |})
  end.

Definition deleteItem {T R} (findIndexById : FindIndexById T R) (idOrIndex : R)
  (prevItems : list (cell T)) : completion (list (cell T)) :=
  match findIndexById in FindIndexById T R
        return R → list (cell T) → completion (list (cell T)) with
  | NoFinder _ => λ idOrIndex prevItems,
      Js.filter (λ _ index, Normal (negb (index =? idOrIndex))) prevItems
  | Finder _ => λ idOrIndex prevItems,
      Js.filter (λ item _, i ← get_id item;
                           Normal (negb (String.eqb i idOrIndex))) prevItems
  end idOrIndex prevItems.

Definition addItem {T} (item : cell T) (prevItems : list (cell T))
  : list (cell T) :=
  prevItems ++ [item].


End UseDragAndDrop.

Import UseDragAndDrop.

(** ** src/App.refactored.jsx *)

Module AppRefactored.

Record State := {
  wrongVariant : list (cell string);
  generatedVariant : list (cell Item);
  correctVariant : list (cell Item);
  history : list HistoryEntry
}.

Definition setWrong (items : list (cell string)) (st : State) : State :=
  {| wrongVariant := items;
     generatedVariant := generatedVariant st;
     correctVariant := correctVariant st;
     history := history st |}.

Definition setGenerated (items : list (cell Item)) (st : State) : State :=
  {| wrongVariant := wrongVariant st;
     generatedVariant := items;
     correctVariant := correctVariant st;
     history := history st |}.

Definition setCorrect (items : list (cell Item)) (st : State) : State :=
  {| wrongVariant := wrongVariant st;
     generatedVariant := generatedVariant st;
     correctVariant := items;
     history := history st |}.

Definition setHistory (f : list HistoryEntry → list HistoryEntry) (st : State)
  : State :=
  {| wrongVariant := wrongVariant st;
     generatedVariant := generatedVariant st;
     correctVariant := correctVariant st;
     history := f (history st) |}.

(** [(items, id) => items.findIndex(item => item.id === id)] *)
Definition findIndexById (items : list (cell Item)) (id : string)
  : completion Z :=
  Js.findIndex (λ item, i ← get_id item; Normal (String.eqb i id)) items.

Definition handleWrongDragEnd (now : string) (event : DragEndEvent Z)
  (st : State) : completion State :=
  '(items, result) ← handleDragEnd (NoFinder string) (wrongVariant st) event;
  let st := setWrong items st in
  match result with
  | object result =>
      Normal (setHistory
                (addHistoryEntry now (WRONG VARIANT_TYPES)
                   (MESSAGES.MOVE_ITEM (oldIndex result) (newIndex result))
                   false) st)
  | null => Normal st
  end.

Definition handleWrongDelete (now : string) (index : Z) (st : State)
  : completion State :=
  let deletedItem := Js.index (wrongVariant st) index in
  items ← deleteItem (NoFinder string) index (wrongVariant st);
  Normal (setHistory
            (addHistoryEntry now (WRONG VARIANT_TYPES)
               (MESSAGES.DELETE_ITEM deletedItem "index") true)
            (setWrong items st)).

Definition movedMessage (activeId : string) (newIndex : Z) : string :=
  "Přesunuto položku s ID " +:+ activeId +:+ " na pozici " +:+ pretty newIndex.

Definition handleGeneratedDragEnd (now : string) (event : DragEndEvent string)
  (st : State) : completion State :=
  '(items, result) ←
    handleDragEnd (Finder findIndexById) (generatedVariant st) event;
  let st := setGenerated items st in
  match result with
  | object result =>
      Normal (setHistory
                (addHistoryEntry now (GENERATED VARIANT_TYPES)
                   (movedMessage (activeId result) (newIndex result))
                   false) st)
  | null => Normal st
  end.

Definition handleGeneratedDelete (now : string) (id : string) (st : State)
  : completion State :=
  deletedItem ←
    Js.find (λ item, i ← get_id item; Normal (String.eqb i id))
            (generatedVariant st);
  if truthy deletedItem then
    items ← deleteItem (Finder findIndexById) id (generatedVariant st);
    v ← get_value deletedItem;
    Normal (setHistory
              (addHistoryEntry now (GENERATED VARIANT_TYPES)
                 (MESSAGES.DELETE_ITEM (defined v) "ID") false)
              (setGenerated items st))
  else Normal st.

(** [generated] is the token produced by [generateNanoId()] at this call. *)
Definition handleAddGeneratedItem (now : string) (generated : string)
  (st : State) : completion State :=
  let newValue :=
    "Nová položka " +:+ pretty (Js.length (generatedVariant st) + 1) in
  let newItem := createItemWithId generated newValue in
  Normal (setHistory
            (addHistoryEntry now (GENERATED VARIANT_TYPES)
               (MESSAGES.ADD_ITEM newValue) false)
            (setGenerated (addItem (defined newItem) (generatedVariant st)) st)).

Definition handleCorrectDragEnd (now : string) (event : DragEndEvent string)
  (st : State) : completion State :=
  '(items, result) ←
    handleDragEnd (Finder findIndexById) (correctVariant st) event;
  let st := setCorrect items st in
  match result with
  | object result =>
      Normal (setHistory
                (addHistoryEntry now (CORRECT VARIANT_TYPES)
                   (movedMessage (activeId result) (newIndex result))
                   false) st)
  | null => Normal st
  end.

Definition handleCorrectDelete (now : string) (id : string) (st : State)
  : completion State :=
  deletedItem ←
    Js.find (λ item, i ← get_id item; Normal (String.eqb i id))
            (correctVariant st);
  if truthy deletedItem then
    items ← deleteItem (Finder findIndexById) id (correctVariant st);
    v ← get_value deletedItem;
    Normal (setHistory
              (addHistoryEntry now (CORRECT VARIANT_TYPES)
                 (MESSAGES.DELETE_ITEM (defined v) "ID") false)
              (setCorrect items st))
  else Normal st.

(** The view handed to [HistoryPanel]. *)
Definition recentHistory (st : State) : list HistoryEntry :=
  getRecentHistory (history st).

End AppRefactored.

(** ** src/App.jsx *)

Module App.

(** Entries of [dragHistory]; only the index-mode delete handler sets
    [warning]. *)
Record DragHistoryEntry := {
  type : string;
  message : string;
  timestamp : string;
  warning : cell bool
}.

Record State := {
  wrongItems : list (cell string);
  generatedItems : list (cell Item);
  correctItems : list (cell Item);
  dragHistory : list DragHistoryEntry
}.

Definition setWrongItems (items : list (cell string)) (st : State) : State :=
  {| wrongItems := items;
     generatedItems := generatedItems st;
     correctItems := correctItems st;
     dragHistory := dragHistory st |}.

Definition setGeneratedItems (items : list (cell Item)) (st : State) : State :=
  {| wrongItems := wrongItems st;
     generatedItems := items;
     correctItems := correctItems st;
     dragHistory := dragHistory st |}.

Definition setCorrectItems (items : list (cell Item)) (st : State) : State :=
  {| wrongItems := wrongItems st;
     generatedItems := generatedItems st;
     correctItems := items;
     dragHistory := dragHistory st |}.

(** [setDragHistory(prev => [...prev, entry])] *)
Definition setDragHistory (entry : DragHistoryEntry) (st : State) : State :=
  {| wrongItems := wrongItems st;
     generatedItems := generatedItems st;
     correctItems := correctItems st;
     dragHistory := dragHistory st ++ [entry] |}.

Definition handleWrongDragEnd (now : string) (event : DragEndEvent Z)
  (st : State) : completion State :=
  match over event with
  | null => Throw TypeError
  | object over_id =>
      if negb (active event =? over_id) then
        let oldIndex := active event in
        let newIndex := over_id in
        let newItems := arrayMove (wrongItems st) oldIndex newIndex in
        Normal (setWrongItems newItems
                  (setDragHistory
                     {| type := "wrong";
                        message := "Přesunuto z indexu " +:+ pretty oldIndex
                                   +:+ " na index " +:+ pretty newIndex;
                        timestamp := now;
                        warning := undefined |} st))
      else Normal st
  end.

(** [items.findIndex((item) => item.id === id)] *)
Definition findIndexOf (items : list (cell Item)) (id : string)
  : completion Z :=
  Js.findIndex (λ item, i ← get_id item; Normal (String.eqb i id)) items.

Definition movedMessage (activeId : string) (newIndex : Z) : string :=
  "Přesunuto položku s ID " +:+ activeId +:+ " na pozici " +:+ pretty newIndex.

Definition handleGeneratedDragEnd (now : string) (event : DragEndEvent string)
  (st : State) : completion State :=
  match over event with
  | null => Throw TypeError
  | object over_id =>
      if negb (String.eqb (active event) over_id) then
        oldIndex ← findIndexOf (generatedItems st) (active event);
        newIndex ← findIndexOf (generatedItems st) over_id;
        let newItems := arrayMove (generatedItems st) oldIndex newIndex in
        Normal (setGeneratedItems newItems
                  (setDragHistory
                     {| type := "generated";
                        message := movedMessage (active event) newIndex;
                        timestamp := now;
                        warning := undefined |} st))
      else Normal st
  end.

Definition handleCorrectDragEnd (now : string) (event : DragEndEvent string)
  (st : State) : completion State :=
  match over event with
  | null => Throw TypeError
  | object over_id =>
      if negb (String.eqb (active event) over_id) then
        oldIndex ← findIndexOf (correctItems st) (active event);
        newIndex ← findIndexOf (correctItems st) over_id;
        let newItems := arrayMove (correctItems st) oldIndex newIndex in
        Normal (setCorrectItems newItems
                  (setDragHistory
                     {| type := "correct";
                        message := movedMessage (active event) newIndex;
                        timestamp := now;
                        warning := undefined |} st))
      else Normal st
  end.

Definition handleWrongDelete (now : string) (index : Z) (st : State)
  : completion State :=
  let deletedItem := Js.index (wrongItems st) index in
  let st' :=
    setDragHistory
      {| type := "wrong";
         message := "Smazána položka " +:+ dquote +:+ show deletedItem
                    +:+ dquote +:+ " na indexu " +:+ pretty index;
         timestamp := now;
         warning := defined true |} st in
  items ← Js.filter (λ _ i, Normal (negb (i =? index))) (wrongItems st);
  Normal (setWrongItems items st').

Definition deletedMessage (value id : string) : string :=
  "Smazána položka " +:+ dquote +:+ value +:+ dquote +:+ " s ID " +:+ id.

Definition handleGeneratedDelete (now : string) (id : string) (st : State)
  : completion State :=
  deletedItem ←
    Js.find (λ item, i ← get_id item; Normal (String.eqb i id))
            (generatedItems st);
  v ← get_value deletedItem;
  let st' :=
    setDragHistory
      {| type := "generated";
         message := deletedMessage v id;
         timestamp := now;
         warning := undefined |} st in
  items ← Js.filter (λ item _, i ← get_id item;
                               Normal (negb (String.eqb i id)))
                    (generatedItems st);
  Normal (setGeneratedItems items st').

Definition handleCorrectDelete (now : string) (id : string) (st : State)
  : completion State :=
  deletedItem ←
    Js.find (λ item, i ← get_id item; Normal (String.eqb i id))
            (correctItems st);
  v ← get_value deletedItem;
  let st' :=
    setDragHistory
      {| type := "correct";
         message := deletedMessage v id;
         timestamp := now;
         warning := undefined |} st in
  items ← Js.filter (λ item _, i ← get_id item;
                               Normal (negb (String.eqb i id)))
                    (correctItems st);
  Normal (setCorrectItems items st').

(** The history panel shows [dragHistory.slice(-5).reverse()]. *)
Definition shownHistory (st : State) : list DragHistoryEntry :=
  Js.reverse (Js.slice (dragHistory st) (-5)).

End App.

(** ** Arrays as shared objects

    [slice] allocates a new array; [reverse] updates its receiver in place
    and returns the same reference.  Arrays live in a store indexed by
    references, so that aliasing between the log and the view is visible. *)

Module Heap.

Definition ref := nat.

Section Store.
Context {A : Type}.

Definition slice (arr : ref) (start : Z) (σ : gmap ref (list A))
  : option (ref * gmap ref (list A)) :=
  elems ← σ !! arr;
  let copy := fresh (dom σ) in
  Some (copy, <[copy := Js.slice elems start]> σ).

Definition reverse (arr : ref) (σ : gmap ref (list A))
  : option (ref * gmap ref (list A)) :=
  elems ← σ !! arr;
  Some (arr, <[arr := Js.reverse elems]> σ).

End Store.

(** [history.slice(-UI_CONSTANTS.HISTORY_DISPLAY_LIMIT).reverse()] on the
    array object referenced by [history]. *)
Definition getRecentHistory (history : ref) (σ : gmap ref (list HistoryEntry))
  : option (ref * gmap ref (list HistoryEntry)) :=
  '(copy, σ) ← slice history (- HISTORY_DISPLAY_LIMIT UI_CONSTANTS) σ;
  reverse copy σ.

End Heap.

(** ** Operation sequences on an identity-mode collection *)

Inductive Op :=
| Move (event : DragEndEvent string)
| Insert (entity : Item)
| Remove (id : string).

Definition identityMode : FindIndexById Item string :=
  Finder AppRefactored.findIndexById.

Definition step (items : list (cell Item)) (op : Op)
  : completion (list (cell Item)) :=
  match op with
  | Move event => fst <$> handleDragEnd identityMode items event
  | Insert entity => Normal (addItem (defined entity) items)
  | Remove id => deleteItem identityMode id items
  end.

Fixpoint run (items : list (cell Item)) (ops : list Op)
  : completion (list (cell Item)) :=
  match ops with
  | [] => Normal items
  | op :: ops => items ← step items op; run items ops
  end.

(** ** Concrete collections and states used in examples *)

Definition twoItems : list Item :=
  [ {| Item.id := "item-1"; Item.value := "Položka A" |};
    {| Item.id := "item-2"; Item.value := "Položka B" |} ].

Definition twoItemsState : AppRefactored.State :=
  {| AppRefactored.wrongVariant := defined <$> INITIAL_ITEMS;
     AppRefactored.generatedVariant := defined <$> twoItems;
     AppRefactored.correctVariant := defined <$> twoItems;
     AppRefactored.history := [] |}.

(** The correct variant after [addIdsToValues(INITIAL_ITEMS, 'incremental')]
    with the counter at zero. *)
Definition scenarioState : AppRefactored.State :=
  {| AppRefactored.wrongVariant := defined <$> INITIAL_ITEMS;
     AppRefactored.generatedVariant := [];
     AppRefactored.correctVariant :=
       defined <$> [ {| Item.id := "item-1"; Item.value := "Položka A" |};
                     {| Item.id := "item-2"; Item.value := "Položka B" |};
                     {| Item.id := "item-3"; Item.value := "Položka C" |};
                     {| Item.id := "item-4"; Item.value := "Položka D" |} ];
     AppRefactored.history := [] |}.

Definition seedState : App.State :=
  {| App.wrongItems := defined <$> INITIAL_ITEMS;
     App.generatedItems := defined <$> twoItems;
     App.correctItems := defined <$> twoItems;
     App.dragHistory := [] |}.

(** One call of [addHistoryEntry]: the clock reading and the three
    arguments. *)
Record RecordCall := {
  call_now : string;
  call_type : string;
  call_message : string;
  call_isWarning : bool
}.

Definition record (call : RecordCall) (log : list HistoryEntry)
  : list HistoryEntry :=
  addHistoryEntry (call_now call) (call_type call) (call_message call)
                  (call_isWarning call) log.

(** A sequence of calls, oldest first. *)
Definition recordAll (calls : list RecordCall) (log : list HistoryEntry)
  : list HistoryEntry :=
  foldl (λ log call, record call log) log calls.

Definition sixCalls : list RecordCall :=
  (λ n : Z, {| call_now := "12:00:0" +:+ pretty n;
               call_type := "correct";
               call_message := "record " +:+ pretty n;
               call_isWarning := false |}) <$> [1; 2; 3; 4; 5; 6].

(** ** Reference definitions used to state the properties *)

(** The last [n] entries of a log, most recent first. *)
Definition recent {A} (n : nat) (log : list A) : list A :=
  take n (List.rev log).

(** The entities of a collection whose id differs from [ref]. *)
Definition others (ref : string) (l : list Item) : list Item :=
  List.filter (λ e, negb (String.eqb (Item.id e) ref)) l.

(** A collection without its [i]-th cell. *)
Definition without {A} (i : nat) (l : list A) : list A :=
  take i l ++ drop (S i) l.

(** The current index of the first entity carrying [id], or [-1]. *)
Definition indexOf (id : string) (l : list Item) : Z :=
  match list_find (λ e, Item.id e = id) l with
  | Some (i, _) => Z.of_nat i
  | None => -1
  end.

(** How many cells of a collection hold the entity [e]. *)
Definition occurrences `{EqDecision A} (e : A) (l : list (cell A)) : nat :=
  count_occ (decide_rel (=)) l (defined e).

(** [move(oldIndex, newIndex)] as the store describes it: the entity at
    [oldIndex] is taken out and put back at [newIndex], the entities in
    between shifting by one position. *)
Definition move {A} (oldIndex newIndex : nat) (l : list A) : list A :=
  match l !! oldIndex with
  | Some e =>
      take newIndex (without oldIndex l) ++ e :: drop newIndex (without oldIndex l)
  | None => l
  end.

(** The position at which the outer [splice] of [arrayMove] is asked to
    insert: [to < 0 ? array.length + to : to]. *)
Definition insertionStart {A} (arr : list A) (to : Z) : Z :=
  if to <? 0 then Js.length arr + to else to.

(** ** src/utils/idGenerators.js: generators reading a source

    A generator reads and advances the source it draws from: the module
    counter for the incremental strategy, the sequence of [Math.random()]
    draws for the random ones. *)

Module Generators.

Definition alphabet : string :=
  "ABCDEFGHIJKLMNOPQRSTUVWXYZabcdefghijklmnopqrstuvwxyz0123456789".

(** [s.charAt(i)]: the empty string outside the string. *)
Definition charAt (s : string) (i : Z) : string :=
  if i <? 0 then EmptyString
  else match String.get (Z.to_nat i) s with
       | Some c => String c EmptyString
       | None => EmptyString
       end.

Section NanoId.
(** [pick k] is the value of [Math.floor(Math.random() * alphabet.length)]
    at the [k]-th draw. *)
Variable pick : nat → Z.

(** The body of [for (let i = 0; i < size; i++)], with the number of
    iterations still to run; [draws] counts the draws made so far. *)
Fixpoint nanoLoop (remaining : nat) (result : string) (draws : nat)
  : string * nat :=
  match remaining with
  | O => (result, draws)
  | S remaining =>
      nanoLoop remaining (result +:+ charAt alphabet (pick draws)) (S draws)
  end.

Definition generateNanoId (size : Z) (draws : nat) : string * nat :=
  nanoLoop (Z.to_nat size) EmptyString draws.

End NanoId.

Section WithSource.
Context {G : Type}.

(** [createItemWithId(value, idType)] once [idType] has selected
    [generator]. *)
Definition createItemWithId (generator : G → string * G) (value : string)
  (g : G) : Item * G :=
  let '(id, g) := generator g in
  (IdGenerators.createItemWithId id value, g).

(** [values.map(value => createItemWithId(value, idType))] *)
Fixpoint addIdsToValues (generator : G → string * G) (values : list string)
  (g : G) : list Item * G :=
  match values with
  | [] => ([], g)
  | value :: values =>
      let '(item, g) := createItemWithId generator value g in
      let '(items, g) := addIdsToValues generator values g in
      (item :: items, g)
  end.

End WithSource.

End Generators.

(** ** src/App.refactored.jsx: reset *)

Module Reset.


Section WithRandom.
Variable pick : nat → Z.


End WithRandom.

End Reset.

(** ** The ids handed to [SortableContext] *)

Module Variants.

(** WrongVariant: [items.map((_, index) => index)] *)
Definition wrongIds {T} (items : list (cell T)) : list Z :=
  imap (λ index _, Z.of_nat index) items.

(** GeneratedVariant and CorrectVariant: [items.map(item => item.id)] *)
Fixpoint identityIds (items : list (cell Item)) : completion (list string) :=
  match items with
  | [] => Normal []
  | item :: items =>
      i ← get_id item;
      ids ← identityIds items;
      Normal (i :: ids)
  end.

End Variants.

(** ** User actions on the refactored application

    One callback invocation of [App.refactored.jsx], with the clock
    reading of its history entry. *)

Inductive Action :=
| WrongDrag (now : string) (event : DragEndEvent Z)
| WrongDelete (now : string) (index : Z)
| GeneratedDrag (now : string) (event : DragEndEvent string)
| GeneratedDelete (now : string) (id : string)
| GeneratedAdd (now : string) (generated : string)
| CorrectDrag (now : string) (event : DragEndEvent string)
| CorrectDelete (now : string) (id : string).

Definition perform (action : Action) (st : AppRefactored.State)
  : completion AppRefactored.State :=
  match action with
  | WrongDrag now event => AppRefactored.handleWrongDragEnd now event st
  | WrongDelete now index => AppRefactored.handleWrongDelete now index st
  | GeneratedDrag now event => AppRefactored.handleGeneratedDragEnd now event st
  | GeneratedDelete now id => AppRefactored.handleGeneratedDelete now id st
  | GeneratedAdd now generated =>
      AppRefactored.handleAddGeneratedItem now generated st
  | CorrectDrag now event => AppRefactored.handleCorrectDragEnd now event st
  | CorrectDelete now id => AppRefactored.handleCorrectDelete now id st
  end.

Fixpoint performAll (actions : list Action) (st : AppRefactored.State)
  : completion AppRefactored.State :=
  match actions with
  | [] => Normal st
  | action :: actions => st ← perform action st; performAll actions st
  end.

(** Both identity-mode collections are free of [undefined] cells. *)
Definition holeFree (st : AppRefactored.State) : Prop :=
  ∃ generated correct : list Item,
    AppRefactored.generatedVariant st = defined <$> generated ∧
    AppRefactored.correctVariant st = defined <$> correct.

(** ** Further reference definitions *)

(** Where the cell at position [k] of [move i j l] comes from. *)
Definition origin (i j k : nat) : nat :=
  if decide (k = j) then i
  else if decide (i ≤ k < j)%nat then S k
  else if decide (j < k ≤ i)%nat then pred k
  else k.

(** The entries written by a sequence of calls. *)
Definition entriesOf (calls : list RecordCall) : list HistoryEntry :=
  (λ call, {| type := call_type call;
              message := call_message call;
              timestamp := call_now call;
              warning := call_isWarning call |}) <$> calls.

(** The ids issued by the incremental strategy for [n] values when the
    counter stands at [c]. *)
Definition incrementalIds (c : Z) (n : nat) : list string :=
  (λ k : nat, "item-" +:+ pretty (c + 1 + Z.of_nat k)) <$> seq 0 n.

(** * Properties *)

(** ** Array primitives *)

Section ArrayFacts.
Context {A : Type}.
Implicit Types arr : list A.

Lemma relativeStart_bounds (len start : Z) :
  0 ≤ len → 0 ≤ relativeStart len start ≤ len.
Proof. unfold relativeStart. case_match; lia. Qed.

Lemma relativeStart_in_range (len i : Z) :
  0 ≤ i ≤ len → relativeStart len i = i.
Proof. unfold relativeStart. intros. case_match; lia. Qed.

Lemma slice_all arr : Js.slice arr 0 = arr.
Proof.
  unfold Js.slice. rewrite relativeStart_in_range; [done|].
  unfold Js.length. lia.
Qed.

Lemma slice_length arr (start : Z) :
  List.length (Js.slice arr start)
  = (List.length arr - Z.to_nat (relativeStart (Js.length arr) start))%nat.
Proof. unfold Js.slice. by rewrite length_drop. Qed.

(** [slice(-n)] with [n > 0] keeps the last [min n len] elements. *)
Lemma slice_last arr (n : Z) :
  0 < n →
  Js.slice arr (- n) = drop (List.length arr - Z.to_nat n) arr.
Proof.
  intros Hn. unfold Js.slice, relativeStart, Js.length.
  case_match; [|lia]. f_equal. lia.
Qed.

(** Inserting with [splice(start, 0, x)] only adds [x]. *)
Lemma splice_insert_perm arr (start : Z) (x : A) :
  (Js.splice arr start 0 [x]).2 ≡ₚ x :: arr.
Proof.
  unfold Js.splice. cbn [snd].
  pose proof (relativeStart_bounds (Js.length arr) start) as Hb.
  set (k := Z.to_nat (relativeStart (Js.length arr) start)).
  replace (Z.to_nat (Z.min (Z.max 0 0) (Js.length arr - relativeStart (Js.length arr) start)))
    with 0%nat by (unfold Js.length in *; lia).
  rewrite Nat.add_0_r. cbn [app].
  rewrite <- Permutation_middle. by rewrite take_drop.
Qed.

End ArrayFacts.

(** ** [arrayMove] *)

Section ArrayMoveFacts.
Context {A : Type}.
Implicit Types arr : list (cell A).

(** [splice(from, 1)] takes out the cell that [from] designates, if any. *)
Lemma splice_remove_one arr (from : Z) (x : cell A) :
  arr !! Z.to_nat (relativeStart (Js.length arr) from) = Some x →
  Js.splice arr from 1 []
  = ([x], without (Z.to_nat (relativeStart (Js.length arr) from)) arr).
Proof.
  intros Hx. unfold Js.splice.
  set (k := Z.to_nat (relativeStart (Js.length arr) from)) in *.
  pose proof (lookup_lt_Some _ _ _ Hx) as Hk.
  pose proof (relativeStart_bounds (Js.length arr) from) as Hb.
  replace (Z.to_nat (Z.min (Z.max 1 0) (Js.length arr - relativeStart (Js.length arr) from)))
    with 1%nat by (unfold Js.length in *; lia).
  rewrite (drop_S _ _ _ Hx). cbn [take app]. rewrite take_0.
  unfold without. by replace (k + 1)%nat with (S k) by lia.
Qed.

Lemma splice_remove_none arr (from : Z) :
  Js.length arr ≤ relativeStart (Js.length arr) from →
  Js.splice arr from 1 [] = ([], arr).
Proof.
  intros Hge. unfold Js.splice.
  set (k := Z.to_nat (relativeStart (Js.length arr) from)) in *.
  assert (List.length arr ≤ k)%nat as Hk by (unfold Js.length in *; lia).
  rewrite (drop_ge _ k) by done.
  rewrite (drop_ge _ (k + _)) by lia.
  rewrite take_nil, (take_ge arr k) by done.
  by rewrite !app_nil_r.
Qed.

(** When [from] designates a cell, that cell is taken out and spliced back. *)
Lemma arrayMove_removed arr (from to : Z) (x : cell A) :
  arr !! Z.to_nat (relativeStart (Js.length arr) from) = Some x →
  arrayMove arr from to
  = (Js.splice (without (Z.to_nat (relativeStart (Js.length arr) from)) arr)
               (insertionStart arr to) 0 [x]).2.
Proof.
  intros Hx. unfold arrayMove. rewrite slice_all.
  by rewrite (splice_remove_one _ _ _ Hx).
Qed.

(** When [from] lies beyond the last cell nothing is taken out and
    [undefined] is spliced in. *)
Lemma arrayMove_nothing_removed arr (from to : Z) :
  Js.length arr ≤ relativeStart (Js.length arr) from →
  arrayMove arr from to
  = (Js.splice arr (insertionStart arr to) 0 [undefined]).2.
Proof.
  intros Hge. unfold arrayMove. rewrite slice_all.
  by rewrite (splice_remove_none _ _ Hge).
Qed.

Lemma arrayMove_Permutation arr (from to : Z) :
  relativeStart (Js.length arr) from < Js.length arr →
  arrayMove arr from to ≡ₚ arr.
Proof.
  intros Hlt.
  pose proof (relativeStart_bounds (Js.length arr) from) as Hb.
  destruct (lookup_lt_is_Some_2 arr
              (Z.to_nat (relativeStart (Js.length arr) from))) as [x Hx].
  { unfold Js.length in *. lia. }
  rewrite (arrayMove_removed _ _ _ _ Hx), splice_insert_perm.
  unfold without. rewrite Permutation_middle.
  by rewrite take_drop_middle.
Qed.

Lemma arrayMove_Permutation_undefined arr (from to : Z) :
  Js.length arr ≤ relativeStart (Js.length arr) from →
  arrayMove arr from to ≡ₚ undefined :: arr.
Proof.
  intros Hge. rewrite arrayMove_nothing_removed by done.
  apply splice_insert_perm.
Qed.

(** Whatever the indices, no defined cell is gained or lost. *)
Lemma arrayMove_occurrences `{EqDecision A} arr (from to : Z) (a : A) :
  occurrences a (arrayMove arr from to) = occurrences a arr.
Proof.
  unfold occurrences.
  destruct (decide (relativeStart (Js.length arr) from < Js.length arr)).
  - apply Permutation_count_occ. by apply arrayMove_Permutation.
  - etrans.
    { apply Permutation_count_occ.
      apply arrayMove_Permutation_undefined. lia. }
    by rewrite count_occ_cons_neq.
Qed.

(** Both indices inside the array: the cell at [from] ends up at [to]. *)
Lemma arrayMove_in_range arr (from to : Z) (x : cell A) :
  0 ≤ from → arr !! Z.to_nat from = Some x →
  0 ≤ to < Js.length arr →
  arrayMove arr from to
  = take (Z.to_nat to) (without (Z.to_nat from) arr)
    ++ x :: drop (Z.to_nat to) (without (Z.to_nat from) arr).
Proof.
  intros Hfrom Hx Hto.
  pose proof (lookup_lt_Some _ _ _ Hx) as Hk.
  assert (relativeStart (Js.length arr) from = from) as Hrel.
  { apply relativeStart_in_range. unfold Js.length. lia. }
  rewrite (arrayMove_removed arr from to x) by (by rewrite Hrel).
  rewrite Hrel. unfold Js.splice. cbn [snd].
  set (rest := without (Z.to_nat from) arr).
  assert (Js.length rest = Js.length arr - 1) as Hrest.
  { unfold rest, without, Js.length.
    rewrite length_app, length_take, length_drop. lia. }
  assert (insertionStart arr to = to) as ->.
  { unfold insertionStart. case_match; lia. }
  rewrite relativeStart_in_range by lia.
  replace (Z.to_nat (Z.min (Z.max 0 0) (Js.length rest - to))) with 0%nat by lia.
  by rewrite Nat.add_0_r.
Qed.

Lemma arrayMove_lookup_to arr (from to : Z) :
  0 ≤ from < Js.length arr → 0 ≤ to < Js.length arr →
  arrayMove arr from to !! Z.to_nat to = arr !! Z.to_nat from.
Proof.
  intros Hfrom Hto.
  destruct (lookup_lt_is_Some_2 arr (Z.to_nat from)) as [x Hx].
  { unfold Js.length in *. lia. }
  rewrite (arrayMove_in_range arr from to x) by (done || lia).
  rewrite Hx. apply list_lookup_middle.
  rewrite length_take. unfold without.
  rewrite length_app, length_take, length_drop.
  unfold Js.length in *. lia.
Qed.

(** [to] at or beyond the end: the cell at [from] becomes the last one. *)
Lemma arrayMove_to_end arr (from to : Z) (x : cell A) :
  0 ≤ from → arr !! Z.to_nat from = Some x →
  Js.length arr ≤ to →
  arrayMove arr from to = without (Z.to_nat from) arr ++ [x].
Proof.
  intros Hfrom Hx Hto.
  pose proof (lookup_lt_Some _ _ _ Hx) as Hk.
  assert (relativeStart (Js.length arr) from = from) as Hrel.
  { apply relativeStart_in_range. unfold Js.length. lia. }
  rewrite (arrayMove_removed arr from to x) by (by rewrite Hrel).
  rewrite Hrel. unfold Js.splice. cbn [snd].
  set (rest := without (Z.to_nat from) arr).
  assert (Js.length rest = Js.length arr - 1) as Hrest.
  { unfold rest, without, Js.length.
    rewrite length_app, length_take, length_drop. lia. }
  assert (insertionStart arr to = to) as ->.
  { unfold insertionStart. unfold Js.length in *. case_match; lia. }
  assert (relativeStart (Js.length rest) to = Js.length rest) as ->.
  { unfold relativeStart. unfold Js.length in *. case_match; lia. }
  replace (Z.to_nat (Z.min (Z.max 0 0) (Js.length rest - Js.length rest)))
    with 0%nat by lia.
  rewrite Nat.add_0_r.
  replace (Z.to_nat (Js.length rest)) with (List.length rest)
    by (unfold Js.length; lia).
  by rewrite take_ge, drop_ge by lia.
Qed.

End ArrayMoveFacts.

(** ** Lookups by id on collections without holes *)

Section IdentityLookups.
Implicit Types (l : list Item) (id : string).

Lemma indexOf_cons e l id :
  indexOf id (e :: l)
  = if decide (Item.id e = id) then 0
    else if decide (indexOf id l = -1) then -1 else indexOf id l + 1.
Proof.
  unfold indexOf. cbn. case_decide; [done|].
  destruct (list_find _ l) as [[i x]|]; cbn; repeat case_decide; lia.
Qed.

Lemma indexOf_range l id :
  indexOf id l = -1 ∨ 0 ≤ indexOf id l < Js.length l.
Proof.
  unfold indexOf, Js.length.
  destruct (list_find _ l) as [[i x]|] eqn:Hfind; [right|by left].
  apply list_find_Some in Hfind as (Hi & _ & _).
  apply lookup_lt_Some in Hi. lia.
Qed.

Lemma indexOf_found l id :
  indexOf id l ≠ -1 →
  ∃ e, l !! Z.to_nat (indexOf id l) = Some e ∧ Item.id e = id.
Proof.
  unfold indexOf.
  destruct (list_find _ l) as [[i x]|] eqn:Hfind; [|done]. intros _.
  apply list_find_Some in Hfind as (Hi & Hid & _).
  exists x. by rewrite Nat2Z.id.
Qed.

Lemma indexOf_absent l id :
  indexOf id l = -1 ↔ ∀ e, e ∈ l → Item.id e ≠ id.
Proof.
  unfold indexOf.
  destruct (list_find _ l) as [[i x]|] eqn:Hfind.
  - apply list_find_Some in Hfind as (Hi & Hid & _). split; [lia|].
    intros Hall. destruct (Hall x); [|done].
    by apply list_elem_of_lookup_2 in Hi.
  - split; [|done]. intros _.
    apply list_find_None in Hfind. by apply Forall_forall.
Qed.

Lemma findIndexFrom_defined l id (k : Z) :
  Js.findIndexFrom (λ item, i ← get_id item; Normal (String.eqb i id))
                   (defined <$> l) k
  = Normal (if decide (indexOf id l = -1) then -1 else k + indexOf id l).
Proof.
  revert k. induction l as [|e l IH]; intros k; [done|].
  cbn. rewrite indexOf_cons.
  destruct (String.eqb_spec (Item.id e) id) as [Heq|Hne].
  - repeat case_decide; f_equal; (done || lia).
  - rewrite IH. pose proof (indexOf_range l id).
    repeat case_decide; f_equal; (done || lia).
Qed.

Lemma findIndexById_defined l id :
  AppRefactored.findIndexById (defined <$> l) id = Normal (indexOf id l).
Proof.
  unfold AppRefactored.findIndexById, Js.findIndex.
  rewrite findIndexFrom_defined. case_decide; f_equal; lia.
Qed.

Lemma findIndexOf_defined l id :
  App.findIndexOf (defined <$> l) id = Normal (indexOf id l).
Proof. apply findIndexById_defined. Qed.

Lemma filterFrom_others l id (k : Z) :
  Js.filterFrom (λ item _, i ← get_id item;
                           Normal (negb (String.eqb i id)))
                (defined <$> l) k
  = Normal (defined <$> others id l).
Proof.
  revert k. induction l as [|e l IH]; intros k; [done|].
  cbn. rewrite IH. cbn. by destruct (String.eqb (Item.id e) id).
Qed.

Lemma deleteItem_identity l id :
  deleteItem identityMode id (defined <$> l)
  = Normal (defined <$> others id l).
Proof. apply filterFrom_others. Qed.

End IdentityLookups.

(** ** Deleting by position *)

Section IndexDelete.
Context {A : Type}.
Implicit Types arr : list A.

Lemma filterFrom_index arr (i k : Z) :
  Js.filterFrom (λ _ index, Normal (negb (index =? i))) arr k
  = Normal (if decide (k ≤ i < k + Js.length arr)
            then without (Z.to_nat (i - k)) arr else arr).
Proof.
  revert k. induction arr as [|x arr IH]; intros k.
  - cbn. rewrite decide_False; [done|]. unfold Js.length. cbn. lia.
  - cbn [Js.filterFrom]. rewrite IH. cbn.
    unfold Js.length. cbn [List.length].
    destruct (Z.eqb_spec k i) as [->|Hne]; cbn.
    + rewrite decide_False by lia. rewrite decide_True by lia.
      by rewrite Z.sub_diag.
    + case_decide.
      * rewrite decide_True by lia.
        replace (Z.to_nat (i - k)) with (S (Z.to_nat (i - (k + 1)))) by lia.
        done.
      * by rewrite decide_False by lia.
Qed.

End IndexDelete.

Lemma deleteItem_index {T} (arr : list (cell T)) (i : Z) :
  deleteItem (NoFinder T) i arr
  = Normal (if decide (0 ≤ i < Js.length arr)
            then without (Z.to_nat i) arr else arr).
Proof.
  unfold deleteItem, Js.filter. rewrite filterFrom_index.
  by rewrite Z.sub_0_r.
Qed.

(** ** Reordering in identity mode *)

Section IdentityMove.
Implicit Types (l : list Item) (a o : string).

Lemma without_fmap {A B} (f : A → B) (i : nat) (xs : list A) :
  without i (f <$> xs) = f <$> without i xs.
Proof. unfold without. by rewrite fmap_app, fmap_take, fmap_drop. Qed.

Lemma move_Permutation {A} (i j : nat) (xs : list A) : move i j xs ≡ₚ xs.
Proof.
  unfold move. destruct (xs !! i) as [e|] eqn:He; [|done].
  rewrite <- Permutation_middle, take_drop. unfold without.
  by rewrite Permutation_middle, take_drop_middle.
Qed.

Lemma move_lookup {A} (i j : nat) (xs : list A) :
  (i < List.length xs)%nat → (j < List.length xs)%nat →
  move i j xs !! j = xs !! i.
Proof.
  intros Hi Hj. unfold move.
  destruct (xs !! i) as [e|] eqn:He.
  - apply list_lookup_middle. rewrite length_take. unfold without.
    rewrite length_app, length_take, length_drop. lia.
  - apply lookup_ge_None in He. lia.
Qed.

(** On a collection without holes, [arrayMove] with both indices in range
    is the store's [move]. *)
Lemma arrayMove_move l (from to : Z) :
  0 ≤ from < Js.length l → 0 ≤ to < Js.length l →
  arrayMove (defined <$> l) from to
  = defined <$> move (Z.to_nat from) (Z.to_nat to) l.
Proof.
  intros Hfrom Hto.
  destruct (lookup_lt_is_Some_2 l (Z.to_nat from)) as [e He].
  { unfold Js.length in *. lia. }
  rewrite (arrayMove_in_range _ from to (defined e)).
  - unfold move. rewrite He, without_fmap.
    by rewrite fmap_app, fmap_cons, fmap_take, fmap_drop.
  - lia.
  - by rewrite list_lookup_fmap, He.
  - unfold Js.length in *. by rewrite length_fmap.
Qed.

(** The hook's drag handler on a collection without holes. *)
Lemma handleDragEnd_identity l a o :
  handleDragEnd identityMode (defined <$> l) {| active := a; over := object o |}
  = Normal
      (if decide (a = o ∨ indexOf a l = -1 ∨ indexOf o l = -1)
       then (defined <$> l, null)
       else (defined <$> move (Z.to_nat (indexOf a l)) (Z.to_nat (indexOf o l)) l,
             object {| oldIndex := indexOf a l;
                       newIndex := indexOf o l;
                       activeId := a;
                       overId := o |})).
Proof.
  unfold handleDragEnd, identityMode. cbn.
  destruct (String.eqb_spec a o) as [->|Hne].
  { by rewrite decide_True by auto. }
  rewrite !findIndexById_defined. cbn.
  pose proof (indexOf_range l a). pose proof (indexOf_range l o).
  destruct (Z.eqb_spec (indexOf a l) (-1)) as [Ha|Ha]; cbn.
  { by rewrite decide_True by auto. }
  destruct (Z.eqb_spec (indexOf o l) (-1)) as [Ho|Ho]; cbn.
  { by rewrite decide_True by auto. }
  rewrite decide_False by (intros [?|[?|?]]; done).
  by rewrite arrayMove_move by lia.
Qed.

Lemma handleDragEnd_null {T R} (mode : FindIndexById T R)
  (items : list (cell T)) (a : R) :
  handleDragEnd mode items {| active := a; over := null |}
  = Normal (items, null).
Proof. done. Qed.

(** Every operation keeps an identity-mode collection free of holes, and
    none of them throws. *)
Lemma step_defined l (op : Op) :
  ∃ l', step (defined <$> l) op = Normal (defined <$> l').
Proof.
  destruct op as [[a [|o]]|e|id]; cbn [step].
  - rewrite handleDragEnd_null. by exists l.
  - rewrite handleDragEnd_identity. cbn. case_decide; eauto.
  - exists (l ++ [e]). unfold addItem. by rewrite fmap_app.
  - rewrite deleteItem_identity. eauto.
Qed.

Lemma run_defined l (ops : list Op) :
  ∃ l', run (defined <$> l) ops = Normal (defined <$> l').
Proof.
  revert l. induction ops as [|op ops IH]; intros l; cbn [run].
  - by exists l.
  - destruct (step_defined l op) as [l1 ->]. cbn. apply IH.
Qed.

End IdentityMove.

(** ** Reordering in index mode *)

Section IndexMove.
Context {T : Type}.
Implicit Types items : list (cell T).

Lemma arrayMove_move_cells items (from to : Z) :
  0 ≤ from < Js.length items → 0 ≤ to < Js.length items →
  arrayMove items from to = move (Z.to_nat from) (Z.to_nat to) items.
Proof.
  intros Hfrom Hto.
  destruct (lookup_lt_is_Some_2 items (Z.to_nat from)) as [x Hx].
  { unfold Js.length in *. lia. }
  rewrite (arrayMove_in_range _ from to x) by (done || lia).
  unfold move. by rewrite Hx.
Qed.

Lemma index_lookup items (i : Z) (x : cell T) :
  0 ≤ i → items !! Z.to_nat i = Some x → Js.index items i = x.
Proof.
  intros Hi Hx. unfold Js.index. rewrite Hx. case_match; [lia|done].
Qed.

Lemma index_out_of_range items (i : Z) :
  ¬ (0 ≤ i < Js.length items) → Js.index items i = undefined.
Proof.
  intros Hi. unfold Js.index. case_match; [done|].
  rewrite lookup_ge_None_2; [done|]. unfold Js.length in *. lia.
Qed.

(** The hook's drag handler without [findIndexById]. *)
Lemma handleDragEnd_index items (oldIndex newIndex : Z) :
  handleDragEnd (NoFinder T) items
    {| active := oldIndex; over := object newIndex |}
  = Normal
      (if decide (oldIndex = newIndex ∨ oldIndex = -1 ∨ newIndex = -1)
       then (items, null)
       else (arrayMove items oldIndex newIndex,
             object {| oldIndex := oldIndex; newIndex := newIndex;
                       activeId := oldIndex; overId := newIndex |})).
Proof.
  unfold handleDragEnd. cbn.
  destruct (Z.eqb_spec oldIndex newIndex) as [->|Hne].
  { by rewrite decide_True by auto. }
  destruct (Z.eqb_spec oldIndex (-1)) as [Ha|Ha]; cbn.
  { by rewrite decide_True by auto. }
  destruct (Z.eqb_spec newIndex (-1)) as [Ho|Ho]; cbn.
  { by rewrite decide_True by auto. }
  by rewrite decide_False by (intros [?|[?|?]]; done).
Qed.

End IndexMove.

(** ** Inserting and deleting *)

Section InsertDelete.

Lemma others_sublist (ref : string) (l : list Item) :
  others ref l `sublist_of` l.
Proof.
  induction l as [|e l IH]; cbn; [done|].
  destruct (negb _); by constructor.
Qed.

Lemma others_elem_of (ref : string) (l : list Item) (e : Item) :
  e ∈ others ref l ↔ e ∈ l ∧ Item.id e ≠ ref.
Proof.
  unfold others.
  by rewrite !list_elem_of_In, filter_In, negb_true_iff, String.eqb_neq.
Qed.

Lemma others_idemp (ref : string) (l : list Item) :
  others ref (others ref l) = others ref l.
Proof.
  unfold others. induction l as [|e l IH]; cbn; [done|].
  destruct (negb _) eqn:He; cbn; by rewrite ?He, IH.
Qed.

Lemma without_sublist {A} (i : nat) (xs : list A) :
  without i xs `sublist_of` xs.
Proof.
  unfold without. rewrite <- (take_drop i xs) at 3.
  apply sublist_app; [done|].
  replace (S i) with (i + 1)%nat by lia.
  rewrite <- drop_drop. apply sublist_drop.
Qed.

Lemma without_lookup {A} (i j : nat) (xs : list A) :
  (i < List.length xs)%nat →
  without i xs !! j = if decide (j < i)%nat then xs !! j else xs !! S j.
Proof.
  intros Hi. unfold without. case_decide.
  - rewrite lookup_app_l by (rewrite length_take; lia).
    by rewrite lookup_take_lt.
  - rewrite lookup_app_r by (rewrite length_take; lia).
    rewrite length_take, lookup_drop. f_equal. lia.
Qed.

End InsertDelete.

(** ** The history log *)

Section HistoryFacts.
Implicit Types (log : list HistoryEntry) (calls : list RecordCall).

Lemma recordAll_app log calls :
  recordAll calls log
  = log ++ ((λ call, {| type := call_type call;
                        message := call_message call;
                        timestamp := call_now call;
                        warning := call_isWarning call |}) <$> calls).
Proof.
  revert log. induction calls as [|call calls IH]; intros log; cbn.
  - by rewrite app_nil_r.
  - unfold recordAll in IH. rewrite IH. unfold record, addHistoryEntry.
    by rewrite <- app_assoc.
Qed.

Lemma reverse_rev {A} (arr : list A) : Js.reverse arr = list.reverse arr.
Proof. unfold Js.reverse. apply rev_alt. Qed.

(** [arr.slice(-n).reverse()] for a positive [n]. *)
Lemma slice_reverse_recent {A} (n : Z) (xs : list A) :
  0 < n → Js.reverse (Js.slice xs (- n)) = recent (Z.to_nat n) xs.
Proof.
  intros Hn. unfold recent. rewrite slice_last by done.
  unfold Js.reverse. by rewrite firstn_rev.
Qed.

Lemma getRecentHistory_recent log :
  getRecentHistory log
  = recent (Z.to_nat (HISTORY_DISPLAY_LIMIT UI_CONSTANTS)) log.
Proof. unfold getRecentHistory. by apply slice_reverse_recent. Qed.

Lemma shownHistory_recent (st : App.State) :
  App.shownHistory st = recent 5 (App.dragHistory st).
Proof. unfold App.shownHistory. by apply (slice_reverse_recent 5). Qed.

Lemma recent_length {A} (n : nat) (xs : list A) :
  List.length (recent n xs) = (n `min` List.length xs)%nat.
Proof. unfold recent. by rewrite length_take, length_rev. Qed.

Lemma recent_lookup {A} (n i : nat) (xs : list A) :
  (i < List.length (recent n xs))%nat →
  recent n xs !! i = xs !! (List.length xs - 1 - i)%nat.
Proof.
  rewrite recent_length. intros Hi. unfold recent.
  rewrite lookup_take_lt by lia. fold (Js.reverse xs).
  rewrite reverse_rev, reverse_lookup by lia. f_equal. lia.
Qed.

(** On the store: the view is a new array and the log is left as it was. *)
Lemma heap_getRecentHistory (σ : gmap Heap.ref (list HistoryEntry))
  (history : Heap.ref) log :
  σ !! history = Some log →
  ∃ view σ',
    Heap.getRecentHistory history σ = Some (view, σ') ∧
    view ≠ history ∧
    σ !! view = None ∧
    σ' = <[view := getRecentHistory log]> σ.
Proof.
  intros Hlog. unfold Heap.getRecentHistory, Heap.slice. rewrite Hlog. cbn.
  unfold Heap.reverse. rewrite lookup_insert_eq. cbn.
  pose proof (is_fresh (dom σ)) as Hfresh.
  eexists _, _. split; [reflexivity|]. split; [|split].
  - intros Heq. apply Hfresh. rewrite Heq. by apply elem_of_dom.
  - by apply not_elem_of_dom.
  - by rewrite insert_insert_eq.
Qed.

End HistoryFacts.

(** The drag handlers of [App.jsx] read [over.id] without a guard. *)
Lemma App_drag_handlers_throw_on_null_over (now : string) (st : App.State) :
  (∀ a : Z,
     App.handleWrongDragEnd now {| active := a; over := null |} st
     = Throw TypeError) ∧
  (∀ a : string,
     App.handleGeneratedDragEnd now {| active := a; over := null |} st
     = Throw TypeError ∧
     App.handleCorrectDragEnd now {| active := a; over := null |} st
     = Throw TypeError).
Proof. done. Qed.

Example generateIncrementalId_first :
  generateIncrementalId 0 = ("item-1", 1).
Proof. reflexivity. Qed.

(** ** The example scenario of the specification

    Seed [A, B, C, D] in identity mode; delete B; move D onto A's position.
    The collection becomes [D, A, C] and the log holds two entries, the
    more recent one being the move. *)

Example scenario_identity_mode :
  ∃ st1 st2,
    AppRefactored.handleCorrectDelete "12:00:01" "item-2" scenarioState
    = Normal st1 ∧
    AppRefactored.correctVariant st1
    = defined <$> [ {| Item.id := "item-1"; Item.value := "Položka A" |};
                    {| Item.id := "item-3"; Item.value := "Položka C" |};
                    {| Item.id := "item-4"; Item.value := "Položka D" |} ] ∧
    List.length (AppRefactored.history st1) = 1%nat ∧
    AppRefactored.handleCorrectDragEnd "12:00:02"
      {| active := "item-4"; over := object "item-1" |} st1 = Normal st2 ∧
    AppRefactored.correctVariant st2
    = defined <$> [ {| Item.id := "item-4"; Item.value := "Položka D" |};
                    {| Item.id := "item-1"; Item.value := "Položka A" |};
                    {| Item.id := "item-3"; Item.value := "Položka C" |} ] ∧
    message <$> AppRefactored.recentHistory st2
    = [ "Přesunuto položku s ID item-4 na pozici 0";
        MESSAGES.DELETE_ITEM (defined "Položka B") "ID" ].
Proof. eexists _, _. by repeat split. Qed.

(** * The claims *)

(** C1. Identity is preserved across reorder.  Whatever sequence of move,
    insert and remove operations produced an identity-mode collection, the
    sequence runs without throwing and leaves a collection without holes;
    a further move by the hook's [handleDragEnd] returns normally with a
    permutation of it, so every [{id, value}] pair present before is
    present after, none changed, dropped or duplicated.  The drag handler
    of [App.jsx] for the correct variant likewise keeps the number of
    occurrences of every entity, and so does the hook in index mode, where
    the cells are addressed by raw positions. *)
Theorem C1_move_preserves_entities (seed : list Item) (ops : list Op) :
  ∃ l : list Item,
    run (defined <$> seed) ops = Normal (defined <$> l) ∧
    (∀ event : DragEndEvent string, ∃ l' result,
        handleDragEnd identityMode (defined <$> l) event
        = Normal (defined <$> l', result) ∧
        l' ≡ₚ l ∧
        (∀ e : Item, e ∈ l ↔ e ∈ l')) ∧
    (∀ (now a o : string) (st : App.State), ∃ st',
        App.handleCorrectDragEnd now {| active := a; over := object o |}
          (App.setCorrectItems (defined <$> l) st) = Normal st' ∧
        ∀ e : Item,
          occurrences e (App.correctItems st') = occurrences e (defined <$> l)) ∧
    (∀ (items : list (cell string)) (event : DragEndEvent Z), ∃ items' result,
        handleDragEnd (NoFinder string) items event = Normal (items', result) ∧
        ∀ e : string, occurrences e items' = occurrences e items).
Proof.
  destruct (run_defined seed ops) as [l Hrun].
  exists l. split; [done|]. split; [|split].
  - intros [a [|o]].
    + exists l, null. by rewrite handleDragEnd_null.
    + rewrite handleDragEnd_identity. case_decide.
      * by exists l, null.
      * eexists _, _. split; [done|].
        pose proof (move_Permutation (Z.to_nat (indexOf a l))
                      (Z.to_nat (indexOf o l)) l) as Hperm.
        split; [done|]. intros e. by rewrite Hperm.
  - intros now a o st. unfold App.handleCorrectDragEnd.
    cbn [over active App.correctItems App.setCorrectItems].
    destruct (String.eqb a o); cbn [negb].
    + by eexists.
    + rewrite !findIndexOf_defined. cbn. eexists. split; [done|].
      intros e. apply arrayMove_occurrences.
  - intros items [a [|o]].
    + exists items, null. by rewrite handleDragEnd_null.
    + rewrite handleDragEnd_index. case_decide.
      * by exists items, null.
      * eexists _, _. split; [done|]. intros e. apply arrayMove_occurrences.
Qed.

(** C2. The defining negative example of index mode.  On the four seed
    entities, deleting the entity at index 1 and then moving index 2 onto
    index 0 moves "Položka D", although index 2 denoted "Položka C" before
    the deletion.  Both the handlers of [App.jsx] and those of
    [App.refactored.jsx] reproduce it. *)
Theorem C2_stale_index_moves_wrong_entity
  (now1 now2 : string) (st : App.State) (st' : AppRefactored.State) :
  let request := {| active := 2; over := object 0 |} in
  let before := defined <$> INITIAL_ITEMS in
  let after := defined <$> ["Položka D"; "Položka A"; "Položka C"] in
  Js.index before 2 = defined "Položka C" ∧
  Js.index after 0 = defined "Položka D" ∧
  Js.index after 0 ≠ Js.index before 2 ∧
  (∃ st2,
      App.handleWrongDelete now1 1 (App.setWrongItems before st)
        ≫= App.handleWrongDragEnd now2 request = Normal st2 ∧
      App.wrongItems st2 = after) ∧
  (∃ st2,
      AppRefactored.handleWrongDelete now1 1 (AppRefactored.setWrong before st')
        ≫= AppRefactored.handleWrongDragEnd now2 request = Normal st2 ∧
      AppRefactored.wrongVariant st2 = after).
Proof.
  cbn zeta. repeat split; try done.
  - eexists. split; [reflexivity|]. reflexivity.
  - eexists. split; [reflexivity|]. reflexivity.
Qed.

(** C3, as stated, fails: a reorder request whose active reference does not
    resolve is dropped without any history entry.  Here "item-9" is not in
    the collection; the handler returns the state it was given, whose
    history is empty, so no warning entry was logged. *)
Lemma C3_stale_reference_logs_nothing :
  indexOf "item-9" twoItems = -1 ∧
  AppRefactored.handleGeneratedDragEnd "12:00:00"
    {| active := "item-9"; over := object "item-1" |} twoItemsState
  = Normal twoItemsState ∧
  ¬ (∃ st' entry,
        AppRefactored.handleGeneratedDragEnd "12:00:00"
          {| active := "item-9"; over := object "item-1" |} twoItemsState
        = Normal st' ∧
        entry ∈ AppRefactored.history st' ∧ warning entry = true).
Proof.
  split; [done|]. split; [done|].
  intros (st' & entry & Hrun & Hin & _).
  injection Hrun as <-. cbn in Hin. by apply elem_of_nil in Hin.
Qed.

(** C3, amended.  In identity mode, for every reorder request on a
    collection without holes: if the active or the over reference does not
    resolve to a current index, the request is aborted, the state
    (collection and history) is returned unchanged and nothing is logged;
    if both references are equal the request is aborted in the same way;
    otherwise the entity carrying the active id is moved from its resolved
    index to the resolved index of the over reference, and one entry,
    not flagged as a warning, is appended to the history. *)
Theorem C3_identity_reorder_outcomes
  (l : list Item) (now a o : string) (st : AppRefactored.State) :
  let st0 := AppRefactored.setGenerated (defined <$> l) st in
  let request := {| active := a; over := object o |} in
  (indexOf a l = -1 ∨ indexOf o l = -1 →
   AppRefactored.handleGeneratedDragEnd now request st0 = Normal st0) ∧
  (a = o →
   AppRefactored.handleGeneratedDragEnd now request st0 = Normal st0) ∧
  (a ≠ o → indexOf a l ≠ -1 → indexOf o l ≠ -1 →
   ∃ st1 e,
     AppRefactored.handleGeneratedDragEnd now request st0 = Normal st1 ∧
     AppRefactored.generatedVariant st1
     = defined <$> move (Z.to_nat (indexOf a l)) (Z.to_nat (indexOf o l)) l ∧
     l !! Z.to_nat (indexOf a l) = Some e ∧ Item.id e = a ∧
     AppRefactored.generatedVariant st1 !! Z.to_nat (indexOf o l)
     = Some (defined e) ∧
     AppRefactored.history st1
     = AppRefactored.history st
       ++ [ {| type := GENERATED VARIANT_TYPES;
               message := AppRefactored.movedMessage a (indexOf o l);
               timestamp := now;
               warning := false |} ] ∧
     AppRefactored.wrongVariant st1 = AppRefactored.wrongVariant st ∧
     AppRefactored.correctVariant st1 = AppRefactored.correctVariant st).
Proof.
  cbn zeta. unfold AppRefactored.handleGeneratedDragEnd.
  cbn [AppRefactored.generatedVariant AppRefactored.setGenerated].
  fold identityMode. rewrite handleDragEnd_identity.
  split; [|split].
  - intros Hstale. by rewrite decide_True by auto.
  - intros ->. by rewrite decide_True by auto.
  - intros Hne Ha Ho. rewrite decide_False by (intros [?|[?|?]]; done).
    destruct (indexOf_found l a Ha) as (e & He & Hid).
    pose proof (indexOf_range l a). pose proof (indexOf_range l o).
    eexists _, e. split; [reflexivity|]. cbn.
    repeat split; try done.
    rewrite list_lookup_fmap, move_lookup, He; [done|..];
      unfold Js.length in *; lia.
Qed.

Lemma C3_identity_reorder_outcomes_witness :
  ((indexOf "item-9" twoItems = -1 ∨ indexOf "item-1" twoItems = -1) ∧
   AppRefactored.handleGeneratedDragEnd "12:00:00"
     {| active := "item-9"; over := object "item-1" |} twoItemsState
   = Normal twoItemsState) ∧
  ("item-1" = "item-1" ∧
   AppRefactored.handleGeneratedDragEnd "12:00:00"
     {| active := "item-1"; over := object "item-1" |} twoItemsState
   = Normal twoItemsState) ∧
  "item-2" ≠ "item-1" ∧
  indexOf "item-2" twoItems ≠ -1 ∧
  indexOf "item-1" twoItems ≠ -1 ∧
  ∃ st1,
    AppRefactored.handleGeneratedDragEnd "12:00:00"
      {| active := "item-2"; over := object "item-1" |} twoItemsState
    = Normal st1 ∧
    AppRefactored.generatedVariant st1
    = defined <$> move 1 0 twoItems ∧
    List.length (AppRefactored.history st1) = 1%nat.
Proof.
  assert (indexOf "item-9" twoItems = -1 ∨ indexOf "item-1" twoItems = -1)
    as Hstale by (left; reflexivity).
  assert ("item-1" = "item-1") as Hsame by reflexivity.
  assert ("item-2" ≠ "item-1") as Hne by discriminate.
  assert (indexOf "item-2" twoItems ≠ -1) as Ha by (vm_compute; discriminate).
  assert (indexOf "item-1" twoItems ≠ -1) as Ho by (vm_compute; discriminate).
  destruct (C3_identity_reorder_outcomes twoItems "12:00:00" "item-9" "item-1"
              twoItemsState) as (Hstale_ok & _ & _).
  destruct (C3_identity_reorder_outcomes twoItems "12:00:00" "item-1" "item-1"
              twoItemsState) as (_ & Hsame_ok & _).
  destruct (C3_identity_reorder_outcomes twoItems "12:00:00" "item-2" "item-1"
              twoItemsState) as (_ & _ & Hmove).
  destruct (Hmove Hne Ha Ho)
    as (st1 & e & Hrun & Hitems & _ & _ & _ & Hhist & _).
  split; [exact (conj Hstale (Hstale_ok Hstale))|].
  split; [exact (conj Hsame (Hsame_ok Hsame))|].
  split; [exact Hne|]. split; [exact Ha|]. split; [exact Ho|].
  exists st1. split; [exact Hrun|]. split; [exact Hitems|].
  rewrite Hhist. reflexivity.
Defined.

(** C4, as stated, fails: six records on an empty log leave six entries in
    the log, more than [HISTORY_DISPLAY_LIMIT], and the oldest one is still
    there.  No bound holds for every sequence of records. *)
Lemma C4_log_grows_past_limit :
  List.length (recordAll sixCalls []) = 6%nat ∧
  HISTORY_DISPLAY_LIMIT UI_CONSTANTS < Z.of_nat (List.length (recordAll sixCalls [])) ∧
  recordAll sixCalls [] !! 0%nat
  = Some {| type := "correct"; message := "record 1";
            timestamp := "12:00:01"; warning := false |} ∧
  ¬ (∃ capacity : nat, ∀ calls : list RecordCall,
        (List.length (recordAll calls []) ≤ capacity)%nat).
Proof.
  split; [done|]. split; [done|]. split; [done|].
  intros [capacity Hbound].
  specialize (Hbound (replicate (S capacity)
                        {| call_now := "12:00:00"; call_type := "correct";
                           call_message := "record"; call_isWarning := false |})).
  rewrite recordAll_app, length_app, length_fmap, length_replicate in Hbound.
  cbn in Hbound. lia.
Qed.

(** C4, amended.  For every sequence of record operations, each record
    appends one entry and evicts none: the log keeps every earlier entry in
    place and grows by one per record.  Only the view handed to consumers
    is bounded: it holds the most recent entries, at most
    [HISTORY_DISPLAY_LIMIT] of them. *)
Theorem C4_log_unbounded_view_bounded
  (log : list HistoryEntry) (calls : list RecordCall) :
  List.length (recordAll calls log)
  = (List.length log + List.length calls)%nat ∧
  log `prefix_of` recordAll calls log ∧
  getRecentHistory (recordAll calls log)
  = recent (Z.to_nat (HISTORY_DISPLAY_LIMIT UI_CONSTANTS)) (recordAll calls log) ∧
  Z.of_nat (List.length (getRecentHistory (recordAll calls log)))
  ≤ HISTORY_DISPLAY_LIMIT UI_CONSTANTS.
Proof.
  split; [|split; [|split]].
  - by rewrite recordAll_app, length_app, length_fmap.
  - rewrite recordAll_app. by eexists.
  - apply getRecentHistory_recent.
  - rewrite getRecentHistory_recent, recent_length. cbn. lia.
Qed.

(** C5.  For every log, the view returned by [getRecentHistory] consists of
    the last [min limit size] entries of the log, where [limit] is
    [HISTORY_DISPLAY_LIMIT]: it never has more than [limit] entries nor
    more than the log; its [i]-th entry is the log's entry at position
    [size - 1 - i], so it runs from the most recent entry backwards; and on
    the store the call allocates the view as a new array, the log and
    every other array being left unchanged. *)
Theorem C5_recent_view (log : list HistoryEntry) :
  let limit := Z.to_nat (HISTORY_DISPLAY_LIMIT UI_CONSTANTS) in
  let view := getRecentHistory log in
  view = recent limit log ∧
  List.length view = (limit `min` List.length log)%nat ∧
  (∀ i : nat, (i < List.length view)%nat →
     view !! i = log !! (List.length log - 1 - i)%nat) ∧
  (∀ (σ : gmap Heap.ref (list HistoryEntry)) (history : Heap.ref),
     σ !! history = Some log →
     ∃ v σ',
       Heap.getRecentHistory history σ = Some (v, σ') ∧
       σ' !! v = Some view ∧
       σ' !! history = Some log ∧
       ∀ r : Heap.ref, r ≠ v → σ' !! r = σ !! r).
Proof.
  cbn zeta. split; [|split; [|split]].
  - apply getRecentHistory_recent.
  - by rewrite getRecentHistory_recent, recent_length.
  - rewrite getRecentHistory_recent. intros i Hi. by apply recent_lookup.
  - intros σ history Hlog.
    destruct (heap_getRecentHistory σ history log Hlog)
      as (v & σ' & Hrun & Hne & Hnew & ->).
    exists v, (<[v := getRecentHistory log]> σ).
    split; [done|]. split; [by rewrite lookup_insert_eq|].
    split; [by rewrite lookup_insert_ne|].
    intros r Hr. by rewrite lookup_insert_ne.
Qed.

Lemma C5_recent_view_witness :
  ((0 < List.length (getRecentHistory (recordAll sixCalls [])))%nat ∧
   getRecentHistory (recordAll sixCalls []) !! 0%nat
   = recordAll sixCalls [] !! 5%nat) ∧
  ({[ 7%nat := recordAll sixCalls [] ]} : gmap Heap.ref (list HistoryEntry))
    !! 7%nat = Some (recordAll sixCalls []) ∧
  ∃ v σ',
    Heap.getRecentHistory 7%nat {[ 7%nat := recordAll sixCalls [] ]}
    = Some (v, σ') ∧
    σ' !! v = Some (getRecentHistory (recordAll sixCalls [])) ∧
    σ' !! 7%nat = Some (recordAll sixCalls []).
Proof.
  assert ((0 < List.length (getRecentHistory (recordAll sixCalls [])))%nat)
    as Hfirst by (vm_compute; repeat constructor).
  assert (({[ 7%nat := recordAll sixCalls [] ]}
            : gmap Heap.ref (list HistoryEntry)) !! 7%nat
          = Some (recordAll sixCalls [])) as Hlog by reflexivity.
  destruct (C5_recent_view (recordAll sixCalls []))
    as (_ & _ & Horder & Hheap).
  split; [exact (conj Hfirst (Horder 0%nat Hfirst))|].
  split; [exact Hlog|].
  destruct (Hheap _ _ Hlog) as (v & σ' & Hrun & Hview & Hkept & _).
  exists v, σ'. split; [exact Hrun|]. split; [exact Hview|exact Hkept].
Defined.


(** C6, as stated, fails: on the four seed entities, [move(0, 10)] is not
    rejected although 10 is outside [0, 4); the collection is changed and
    a non-null result is returned, by the hook and by [App.jsx] alike. *)
Lemma C6_out_of_range_index_is_moved :
  ¬ (0 ≤ 10 < Js.length (defined <$> INITIAL_ITEMS)) ∧
  handleDragEnd (NoFinder string) (defined <$> INITIAL_ITEMS)
    {| active := 0; over := object 10 |}
  = Normal (defined <$> ["Položka B"; "Položka C"; "Položka D"; "Položka A"],
            object {| oldIndex := 0; newIndex := 10;
                      activeId := 0; overId := 10 |}) ∧
  App.wrongItems
  <$> App.handleWrongDragEnd "12:00:00" {| active := 0; over := object 10 |}
        seedState
  = Normal (defined <$> ["Položka B"; "Položka C"; "Položka D"; "Položka A"]).
Proof.
  split; [|split]; [|reflexivity..].
  unfold Js.length. rewrite length_fmap. cbn. lia.
Qed.

(** C6, amended.  For every collection of length L, [move(oldIndex,
    newIndex)] is a no-op returning a null result when both indices are
    equal (and, in the hook, when either of them is -1).  There is no
    OutOfRange failure: every other pair of indices is handed to
    [arrayMove] unchecked and a non-null result is returned.  With both
    indices in [0, L) the entity at [oldIndex] is taken out and put back
    at [newIndex]; with [oldIndex] in [0, L) and [newIndex >= L] it
    becomes the last entity. *)
Theorem C6_move_without_range_check
  {T : Type} (items : list (cell T)) (oldIndex newIndex : Z) :
  let request := {| active := oldIndex; over := object newIndex |} in
  let L := Js.length items in
  (oldIndex = newIndex ∨ oldIndex = -1 ∨ newIndex = -1 →
   handleDragEnd (NoFinder T) items request = Normal (items, null)) ∧
  (oldIndex ≠ newIndex → oldIndex ≠ -1 → newIndex ≠ -1 →
   handleDragEnd (NoFinder T) items request
   = Normal (arrayMove items oldIndex newIndex,
             object {| oldIndex := oldIndex; newIndex := newIndex;
                       activeId := oldIndex; overId := newIndex |})) ∧
  (0 ≤ oldIndex < L → 0 ≤ newIndex < L →
   arrayMove items oldIndex newIndex
   = move (Z.to_nat oldIndex) (Z.to_nat newIndex) items) ∧
  (0 ≤ oldIndex < L → L ≤ newIndex →
   arrayMove items oldIndex newIndex
   = without (Z.to_nat oldIndex) items ++ [Js.index items oldIndex]) ∧
  (∀ (now : string) (st : App.State),
     oldIndex = newIndex →
     App.handleWrongDragEnd now request st = Normal st) ∧
  (∀ (now : string) (st : App.State),
     oldIndex ≠ newIndex →
     App.wrongItems <$> App.handleWrongDragEnd now request st
     = Normal (arrayMove (App.wrongItems st) oldIndex newIndex)).
Proof.
  cbn zeta. rewrite handleDragEnd_index.
  split; [|split; [|split; [|split; [|split]]]].
  - intros Hnoop. by rewrite decide_True.
  - intros Hne Ha Ho. by rewrite decide_False by (intros [?|[?|?]]; done).
  - apply arrayMove_move_cells.
  - intros Hold Hnew.
    destruct (lookup_lt_is_Some_2 items (Z.to_nat oldIndex)) as [x Hx].
    { unfold Js.length in *. lia. }
    rewrite (arrayMove_to_end _ oldIndex newIndex x) by (done || lia).
    by rewrite (index_lookup _ _ x) by (done || lia).
  - intros now st ->. unfold App.handleWrongDragEnd. cbn.
    by rewrite Z.eqb_refl.
  - intros now st Hne. unfold App.handleWrongDragEnd. cbn.
    by destruct (Z.eqb_spec oldIndex newIndex).
Qed.

Lemma C6_move_without_range_check_witness :
  (((2 : Z) = 2 ∨ (2 : Z) = -1 ∨ (2 : Z) = -1) ∧
   handleDragEnd (NoFinder string) (defined <$> INITIAL_ITEMS)
     {| active := 2; over := object 2 |}
   = Normal (defined <$> INITIAL_ITEMS, null)) ∧
  ((0 : Z) ≠ 10 ∧ (0 : Z) ≠ -1 ∧ (10 : Z) ≠ -1 ∧
   handleDragEnd (NoFinder string) (defined <$> INITIAL_ITEMS)
     {| active := 0; over := object 10 |}
   = Normal (arrayMove (defined <$> INITIAL_ITEMS) 0 10,
             object {| oldIndex := 0; newIndex := 10;
                       activeId := 0; overId := 10 |})) ∧
  (0 ≤ 2 < Js.length (defined <$> INITIAL_ITEMS) ∧
   0 ≤ 0 < Js.length (defined <$> INITIAL_ITEMS) ∧
   arrayMove (defined <$> INITIAL_ITEMS) 2 0
   = move 2 0 (defined <$> INITIAL_ITEMS)) ∧
  (Js.length (defined <$> INITIAL_ITEMS) ≤ 10 ∧
   arrayMove (defined <$> INITIAL_ITEMS) 0 10
   = without 0 (defined <$> INITIAL_ITEMS)
     ++ [Js.index (defined <$> INITIAL_ITEMS) 0]) ∧
  App.handleWrongDragEnd "12:00:00" {| active := 2; over := object 2 |}
    seedState = Normal seedState ∧
  App.wrongItems
  <$> App.handleWrongDragEnd "12:00:00" {| active := 0; over := object 10 |}
        seedState
  = Normal (arrayMove (App.wrongItems seedState) 0 10).
Proof.
  assert ((2 : Z) = 2 ∨ (2 : Z) = -1 ∨ (2 : Z) = -1) as Hnoop
    by (left; reflexivity).
  assert ((0 : Z) ≠ 10) as H1 by lia.
  assert ((0 : Z) ≠ -1) as H2 by lia.
  assert ((10 : Z) ≠ -1) as H3 by lia.
  assert (0 ≤ 2 < Js.length (defined <$> INITIAL_ITEMS)) as H4
    by (vm_compute; split; [discriminate|reflexivity]).
  assert (0 ≤ 0 < Js.length (defined <$> INITIAL_ITEMS)) as H5
    by (vm_compute; split; [discriminate|reflexivity]).
  assert (Js.length (defined <$> INITIAL_ITEMS) ≤ 10) as H6
    by (vm_compute; discriminate).
  destruct (C6_move_without_range_check (defined <$> INITIAL_ITEMS) 2 2)
    as (Hnoop_ok & _ & _ & _ & Hsame & _).
  destruct (C6_move_without_range_check (defined <$> INITIAL_ITEMS) 0 10)
    as (_ & Hmove & _ & Hend & _ & Hold).
  destruct (C6_move_without_range_check (defined <$> INITIAL_ITEMS) 2 0)
    as (_ & _ & Hin & _).
  exact (conj (conj Hnoop (Hnoop_ok Hnoop))
        (conj (conj H1 (conj H2 (conj H3 (Hmove H1 H2 H3))))
        (conj (conj H4 (conj H5 (Hin H4 H5)))
        (conj (conj H6 (Hend H5 H6))
        (conj (Hsame "12:00:00" seedState eq_refl)
              (Hold "12:00:00" seedState H1)))))).
Defined.

(** C7, as stated, fails: inserting an entity whose id is already in the
    collection is not rejected; the entity is appended and the collection
    then holds the id twice.  The add handler does the same when the
    generator returns a token already in use. *)
Lemma C7_duplicate_id_is_appended :
  "item-1" ∈ (Item.id <$> twoItems) ∧
  addItem (defined {| Item.id := "item-1"; Item.value := "Položka E" |})
          (defined <$> twoItems)
  = defined <$> (twoItems ++ [ {| Item.id := "item-1"; Item.value := "Položka E" |} ]) ∧
  ¬ NoDup (Item.id <$> (twoItems
                        ++ [ {| Item.id := "item-1"; Item.value := "Položka E" |} ])) ∧
  AppRefactored.generatedVariant
  <$> AppRefactored.handleAddGeneratedItem "12:00:00" "item-1" twoItemsState
  = Normal (defined <$> (twoItems ++ [ {| Item.id := "item-1";
                                          Item.value := "Nová položka 3" |} ])).
Proof.
  split; [|split; [|split]]; [|reflexivity| |reflexivity].
  - cbn. apply list_elem_of_here.
  - cbn. intros Hnodup. apply NoDup_cons_1_1 in Hnodup.
    apply Hnodup. apply list_elem_of_further, list_elem_of_here.
Qed.

(** C7, amended.  [insert(entity)] appends the entity to the end of the
    sequence, unconditionally: there is no DuplicateId failure.  An entity
    whose id already exists is appended as well, after which the id occurs
    twice; when the collection has unique ids and the new id is not among
    them, the ids stay unique.  The add handler appends the new entity and
    records one history entry. *)
Theorem C7_insert_appends_unconditionally (l : list Item) (e : Item) :
  addItem (defined e) (defined <$> l) = defined <$> (l ++ [e]) ∧
  (Item.id e ∈ (Item.id <$> l) → ¬ NoDup (Item.id <$> (l ++ [e]))) ∧
  (NoDup (Item.id <$> l) → Item.id e ∉ (Item.id <$> l) →
   NoDup (Item.id <$> (l ++ [e]))) ∧
  (∀ (now generated : string) (st : AppRefactored.State), ∃ st' value,
     AppRefactored.handleAddGeneratedItem now generated st = Normal st' ∧
     AppRefactored.generatedVariant st'
     = AppRefactored.generatedVariant st
       ++ [defined {| Item.id := generated; Item.value := value |}] ∧
     AppRefactored.history st'
     = AppRefactored.history st
       ++ [ {| type := GENERATED VARIANT_TYPES;
               message := MESSAGES.ADD_ITEM value;
               timestamp := now;
               warning := false |} ]).
Proof.
  split; [|split; [|split]].
  - unfold addItem. by rewrite fmap_app.
  - intros Hin Hnodup. rewrite fmap_app in Hnodup.
    apply NoDup_app in Hnodup as (_ & Hdisjoint & _).
    apply (Hdisjoint _ Hin). cbn. apply list_elem_of_here.
  - intros Hnodup Hfresh. rewrite fmap_app. apply NoDup_app.
    split; [done|]. split; [|apply NoDup_singleton].
    intros i Hi Hi'. cbn in Hi'. apply list_elem_of_singleton in Hi'.
    by subst.
  - intros now generated st. by eexists _, _.
Qed.

Lemma C7_insert_appends_unconditionally_witness :
  ("item-1" ∈ (Item.id <$> twoItems) ∧
   ¬ NoDup (Item.id <$> (twoItems
                         ++ [ {| Item.id := "item-1"; Item.value := "Položka E" |} ]))) ∧
  NoDup (Item.id <$> twoItems) ∧
  ("item-3" ∉ (Item.id <$> twoItems)) ∧
  NoDup (Item.id <$> (twoItems
                      ++ [ {| Item.id := "item-3"; Item.value := "Položka C" |} ])).
Proof.
  assert ("item-1" ∈ (Item.id <$> twoItems)) as Hused.
  { apply (bool_decide_unpack _). vm_compute. exact I. }
  assert (NoDup (Item.id <$> twoItems)) as Hnodup.
  { apply (bool_decide_unpack _). vm_compute. exact I. }
  assert ("item-3" ∉ (Item.id <$> twoItems)) as Hfresh.
  { apply (bool_decide_unpack _). vm_compute. exact I. }
  destruct (C7_insert_appends_unconditionally twoItems
              {| Item.id := "item-1"; Item.value := "Položka E" |})
    as (_ & Hdup & _).
  destruct (C7_insert_appends_unconditionally twoItems
              {| Item.id := "item-3"; Item.value := "Položka C" |})
    as (_ & _ & Hunique & _).
  exact (conj (conj Hused (Hdup Hused))
              (conj Hnodup (conj Hfresh (Hunique Hnodup Hfresh)))).
Defined.

(** C8, as stated, fails: a reorder request whose over reference is null
    does not fail.  The hook returns the null result and the collection
    unchanged, exactly as for the no-op request whose two references are
    equal, and the handler built on it returns the state it was given. *)
Lemma C8_null_over_is_ignored :
  handleDragEnd identityMode (defined <$> twoItems)
    {| active := "item-1"; over := null |}
  = Normal (defined <$> twoItems, null) ∧
  handleDragEnd identityMode (defined <$> twoItems)
    {| active := "item-1"; over := null |}
  = handleDragEnd identityMode (defined <$> twoItems)
      {| active := "item-1"; over := object "item-1" |} ∧
  handleDragEnd identityMode (defined <$> twoItems)
    {| active := "item-1"; over := null |}
  ≠ Throw TypeError ∧
  AppRefactored.handleGeneratedDragEnd "12:00:00"
    {| active := "item-1"; over := null |} twoItemsState
  = Normal twoItemsState.
Proof. by repeat split. Qed.

(** C8, amended.  A reorder request whose over reference is null is not a
    failure: in either reference mode the hook's [handleDragEnd] returns
    the null result and leaves the collection as it is, and each drag
    handler of the refactored application returns its state unchanged, so
    nothing is moved and nothing is recorded. *)
Theorem C8_null_over_is_a_silent_no_op :
  (∀ (T R : Type) (mode : FindIndexById T R) (items : list (cell T)) (a : R),
     handleDragEnd mode items {| active := a; over := null |}
     = Normal (items, null)) ∧
  (∀ (now : string) (a : Z) (st : AppRefactored.State),
     AppRefactored.handleWrongDragEnd now {| active := a; over := null |} st
     = Normal st) ∧
  (∀ (now a : string) (st : AppRefactored.State),
     AppRefactored.handleGeneratedDragEnd now {| active := a; over := null |} st
     = Normal st ∧
     AppRefactored.handleCorrectDragEnd now {| active := a; over := null |} st
     = Normal st).
Proof.
  split; [|split].
  - intros. apply handleDragEnd_null.
  - by intros now a [].
  - by intros now a [].
Qed.

(** C9.  [deleteItem] leaves every entity that does not match the
    reference unchanged and in the same relative order.  In identity mode
    the result consists of exactly the entities whose id differs from the
    reference, in their original order; in index mode the result is the
    collection without the cell at that index (the whole collection when
    the index designates no cell), every other cell keeping its content
    and its order.  Neither call throws. *)
Theorem C9_delete_frame :
  (∀ (l : list Item) (ref : string), ∃ l',
     deleteItem identityMode ref (defined <$> l) = Normal (defined <$> l') ∧
     l' `sublist_of` l ∧
     others ref l' = others ref l ∧
     (∀ e : Item, e ∈ l' ↔ e ∈ l ∧ Item.id e ≠ ref)) ∧
  (∀ (T : Type) (items : list (cell T)) (ref : Z), ∃ items',
     deleteItem (NoFinder T) ref items = Normal items' ∧
     items' `sublist_of` items ∧
     (∀ j : nat,
        items' !! j
        = if decide (0 ≤ ref < Js.length items)
          then if decide (j < Z.to_nat ref)%nat
               then items !! j else items !! S j
          else items !! j)).
Proof.
  split.
  - intros l ref. exists (others ref l).
    rewrite deleteItem_identity. split; [done|].
    split; [apply others_sublist|].
    split; [apply others_idemp|]. intros e. apply others_elem_of.
  - intros T items ref. rewrite deleteItem_index. eexists. split; [done|].
    case_decide.
    + split; [apply without_sublist|]. intros j.
      apply without_lookup. unfold Js.length in *. lia.
    + done.
Qed.

(** C10.  In index mode, a delete request whose index lies outside
    [0, length) removes nothing, and yet the handler appends a history
    entry flagged as a warning (its message names the item "undefined"):
    an entry is recorded although no mutation took place.  This holds for
    the handler of [App.refactored.jsx] and for that of [App.jsx]. *)
Theorem C10_out_of_range_delete_still_logs
  (now : string) (index : Z) (st : AppRefactored.State) (st' : App.State) :
  ¬ (0 ≤ index < Js.length (AppRefactored.wrongVariant st)) →
  ¬ (0 ≤ index < Js.length (App.wrongItems st')) →
  AppRefactored.handleWrongDelete now index st
  = Normal
      (AppRefactored.setHistory
         (λ history,
            history ++ [ {| type := WRONG VARIANT_TYPES;
                            message := MESSAGES.DELETE_ITEM undefined "index";
                            timestamp := now;
                            warning := true |} ]) st) ∧
  ∃ st2 entry,
    App.handleWrongDelete now index st' = Normal st2 ∧
    App.wrongItems st2 = App.wrongItems st' ∧
    App.dragHistory st2 = App.dragHistory st' ++ [entry] ∧
    App.warning entry = defined true.
Proof.
  intros Hout Hout'. split.
  - unfold AppRefactored.handleWrongDelete.
    rewrite deleteItem_index, decide_False by done.
    rewrite index_out_of_range by done. cbn. by destruct st.
  - unfold App.handleWrongDelete, Js.filter.
    rewrite filterFrom_index, decide_False by lia. cbn.
    eexists _, _. by repeat split.
Qed.

Lemma C10_out_of_range_delete_still_logs_witness :
  ¬ (0 ≤ 7 < Js.length (AppRefactored.wrongVariant twoItemsState)) ∧
  ¬ (0 ≤ 7 < Js.length (App.wrongItems seedState)) ∧
  AppRefactored.wrongVariant
  <$> AppRefactored.handleWrongDelete "12:00:00" 7 twoItemsState
  = Normal (AppRefactored.wrongVariant twoItemsState) ∧
  (List.length ∘ AppRefactored.history)
  <$> AppRefactored.handleWrongDelete "12:00:00" 7 twoItemsState
  = Normal 1%nat.
Proof.
  assert (¬ (0 ≤ 7 < Js.length (AppRefactored.wrongVariant twoItemsState)))
    as Hout by (vm_compute; intros [_ H]; discriminate H).
  assert (¬ (0 ≤ 7 < Js.length (App.wrongItems seedState)))
    as Hout' by (vm_compute; intros [_ H]; discriminate H).
  destruct (C10_out_of_range_delete_still_logs "12:00:00" 7 twoItemsState
              seedState Hout Hout') as [Hrun _].
  split; [exact Hout|]. split; [exact Hout'|].
  rewrite Hrun. split; reflexivity.
Defined.

(** * Further properties *)

(** ** Identifier generators *)

Section GeneratorFacts.

Lemma string_app_cons (c : Ascii.ascii) (a b : string) :
  String c a +:+ b = String c (a +:+ b).
Proof. reflexivity. Qed.

Lemma string_length_app (a b : string) :
  String.length (a +:+ b) = (String.length a + String.length b)%nat.
Proof.
  induction a as [|c a IH]; [done|].
  rewrite string_app_cons. cbn [String.length]. by rewrite IH.
Qed.

Lemma string_app_empty_r (s : string) : s +:+ EmptyString = s.
Proof.
  induction s as [|c s IH]; [done|]. by rewrite string_app_cons, IH.
Qed.

Lemma string_app_snoc (s : string) (c : Ascii.ascii) (suffix : string) :
  (s +:+ String c EmptyString) +:+ suffix = s +:+ String c suffix.
Proof.
  induction s as [|c' s IH]; [done|]. by rewrite !string_app_cons, IH.
Qed.

Lemma string_get_elem (s : string) (n : nat) (c : Ascii.ascii) :
  String.get n s = Some c → In c (String.list_ascii_of_string s).
Proof.
  revert n. induction s as [|c' s IH]; intros n; cbn; [done|].
  destruct n as [|n]; [intros [= ->]; by left|].
  intros Hget. right. by apply (IH n).
Qed.

Lemma string_get_lt (s : string) (n : nat) :
  (n < String.length s)%nat → ∃ c, String.get n s = Some c.
Proof.
  revert n. induction s as [|c' s IH]; intros n; cbn; [lia|].
  destruct n as [|n]; [by eexists|]. intros Hn. apply IH. lia.
Qed.

Lemma list_ascii_app (a b : string) :
  String.list_ascii_of_string (a +:+ b)
  = (String.list_ascii_of_string a ++ String.list_ascii_of_string b)%list.
Proof.
  induction a as [|c a IH]; [done|].
  rewrite string_app_cons. cbn [String.list_ascii_of_string app].
  by rewrite IH.
Qed.

(** A draw inside the alphabet contributes exactly one of its characters. *)
Lemma charAt_alphabet (i : Z) :
  0 ≤ i < 62 →
  ∃ c, Generators.charAt Generators.alphabet i = String c EmptyString ∧
       In c (String.list_ascii_of_string Generators.alphabet).
Proof.
  intros Hi. unfold Generators.charAt.
  destruct (Z.ltb_spec i 0) as [|_]; [lia|].
  destruct (string_get_lt Generators.alphabet (Z.to_nat i)) as [c Hc].
  { cbn. lia. }
  rewrite Hc. exists c. split; [done|]. by apply string_get_elem in Hc.
Qed.

Lemma nanoLoop_spec (pick : nat → Z) (remaining : nat) (result : string)
  (draws : nat) :
  (∀ k, 0 ≤ pick k < 62) →
  ∃ suffix,
    Generators.nanoLoop pick remaining result draws
    = (result +:+ suffix, (draws + remaining)%nat) ∧
    String.length suffix = remaining ∧
    ∀ c, In c (String.list_ascii_of_string suffix) →
         In c (String.list_ascii_of_string Generators.alphabet).
Proof.
  intros Hpick. revert result draws.
  induction remaining as [|remaining IH]; intros result draws.
  - exists EmptyString. cbn. split; [|done].
    rewrite string_app_empty_r. f_equal. lia.
  - cbn [Generators.nanoLoop].
    destruct (charAt_alphabet (pick draws) (Hpick draws)) as (c & -> & Hc).
    destruct (IH (result +:+ String c EmptyString) (S draws))
      as (suffix & -> & Hlen & Hin).
    exists (String c suffix). split; [|split].
    + rewrite string_app_snoc. f_equal. lia.
    + cbn. by rewrite Hlen.
    + intros c' [<-|Hc']; [done|]. by apply Hin.
Qed.

Lemma incrementalIds_S (c : Z) (n : nat) :
  incrementalIds c (S n)
  = ("item-" +:+ pretty (c + 1)) :: incrementalIds (c + 1) n.
Proof.
  unfold incrementalIds. cbn [seq fmap list_fmap]. f_equal.
  - do 2 f_equal. lia.
  - rewrite <- fmap_S_seq, <- list_fmap_compose.
    apply list_fmap_ext. intros _ k _. cbn. do 2 f_equal. lia.
Qed.

Lemma addIdsToValues_incremental (values : list string) (c : Z) :
  Generators.addIdsToValues generateIncrementalId values c
  = (zip_with Item.mk (incrementalIds c (List.length values)) values,
     c + Z.of_nat (List.length values)).
Proof.
  revert c. induction values as [|value values IH]; intros c.
  - cbn. f_equal. lia.
  - cbn [Generators.addIdsToValues Generators.createItemWithId
         generateIncrementalId].
    rewrite IH. cbn [List.length]. rewrite incrementalIds_S. cbn.
    f_equal. lia.
Qed.

Lemma incrementalIds_elem (c : Z) (n : nat) (id : string) :
  id ∈ incrementalIds c n ↔
  ∃ k : Z, c < k ≤ c + Z.of_nat n ∧ id = "item-" +:+ pretty k.
Proof.
  unfold incrementalIds. rewrite list_elem_of_fmap. split.
  - intros (k & -> & Hk). apply elem_of_seq in Hk.
    exists (c + 1 + Z.of_nat k). split; [lia|done].
  - intros (k & Hk & ->). exists (Z.to_nat (k - c - 1)). split.
    + do 2 f_equal. lia.
    + apply elem_of_seq. lia.
Qed.

Lemma incremental_id_inj (j k : Z) :
  "item-" +:+ pretty j = "item-" +:+ pretty k → j = k.
Proof. cbn. intros [= Heq]. by apply (inj pretty). Qed.

Lemma incrementalIds_NoDup (c : Z) (n : nat) : NoDup (incrementalIds c n).
Proof.
  unfold incrementalIds. apply NoDup_fmap_2_strong; [|apply NoDup_seq].
  intros j k _ _ Heq. apply incremental_id_inj in Heq. lia.
Qed.

End GeneratorFacts.

Lemma zip_with_mk_fields (ids values : list string) :
  List.length ids = List.length values →
  Item.id <$> zip_with Item.mk ids values = ids ∧
  Item.value <$> zip_with Item.mk ids values = values.
Proof.
  revert values. induction ids as [|i ids IH]; intros [|v values] Hlen;
    try done.
  injection Hlen as Hlen. destruct (IH values Hlen) as [Hids Hvalues].
  cbn. by rewrite Hids, Hvalues.
Qed.

Lemma incrementalIds_length (c : Z) (n : nat) :
  List.length (incrementalIds c n) = n.
Proof. unfold incrementalIds. by rewrite length_fmap, length_seq. Qed.

(** X1.  [addIdsToValues(values, 'incremental')] with the counter at [c]
    returns one entity per value, in the order of the values and with the
    values unchanged; their ids are "item-(c+1)" ... "item-(c+n)", pairwise
    distinct and different from every id the counter issued before (any
    "item-k" with k <= c); the counter ends at [c + n]. *)
Theorem X1_incremental_ids_fresh_and_unique (values : list string) (c : Z) :
  ∃ items,
    Generators.addIdsToValues generateIncrementalId values c
    = (items, c + Z.of_nat (List.length values)) ∧
    Item.value <$> items = values ∧
    Item.id <$> items = incrementalIds c (List.length values) ∧
    NoDup (Item.id <$> items) ∧
    ∀ k : Z, k ≤ c → ("item-" +:+ pretty k) ∉ (Item.id <$> items).
Proof.
  rewrite addIdsToValues_incremental. eexists. split; [done|].
  destruct (zip_with_mk_fields (incrementalIds c (List.length values)) values)
    as [Hids Hvalues]; [apply incrementalIds_length|].
  rewrite Hids. split; [done|]. split; [done|].
  split; [apply incrementalIds_NoDup|].
  intros k Hk Hin. apply incrementalIds_elem in Hin as (j & Hj & Heq).
  apply incremental_id_inj in Heq. lia.
Qed.

(** X2.  [generateNanoId(size)] makes one draw per character: when every
    draw falls inside the alphabet, the token has exactly [size] characters
    (none for a non-positive size), all of them taken from the alphabet,
    and [size] draws have been consumed. *)
Theorem X2_nanoid_length_and_alphabet
  (pick : nat → Z) (size : Z) (draws : nat) :
  (∀ k, 0 ≤ pick k < 62) →
  ∃ token,
    Generators.generateNanoId pick size draws
    = (token, (draws + Z.to_nat size)%nat) ∧
    String.length token = Z.to_nat size ∧
    ∀ c, In c (String.list_ascii_of_string token) →
         In c (String.list_ascii_of_string Generators.alphabet).
Proof.
  intros Hpick. unfold Generators.generateNanoId.
  destruct (nanoLoop_spec pick (Z.to_nat size) EmptyString draws Hpick)
    as (suffix & Hrun & Hlen & Hin).
  exists suffix. by rewrite Hrun.
Qed.

Lemma X2_nanoid_length_and_alphabet_witness :
  (∀ k : nat, 0 ≤ Z.of_nat k `mod` 62 < 62) ∧
  ∃ token,
    Generators.generateNanoId (λ k, Z.of_nat k `mod` 62) 8 60
    = (token, 68%nat) ∧
    String.length token = 8%nat.
Proof.
  assert (∀ k : nat, 0 ≤ Z.of_nat k `mod` 62 < 62) as Hpick
    by (intros k; apply Z.mod_pos_bound; lia).
  split; [exact Hpick|].
  destruct (X2_nanoid_length_and_alphabet (λ k, Z.of_nat k `mod` 62) 8 60 Hpick)
    as (token & Hrun & Hlen & _).
  exists token. exact (conj Hrun Hlen).
Defined.



(** ** Resolving, deleting and inserting by id *)

Section IdentityFacts.
Implicit Types (l : list Item) (id : string) (e : Item).

Lemma indexOf_first l id :
  indexOf id l ≠ -1 →
  ∀ (k : nat) e, (k < Z.to_nat (indexOf id l))%nat → l !! k = Some e →
                 Item.id e ≠ id.
Proof.
  unfold indexOf.
  destruct (list_find _ l) as [[i x]|] eqn:Hfind; [|done]. intros _ k e Hk He.
  apply list_find_Some in Hfind as (_ & _ & Hfirst).
  apply (Hfirst k e He). lia.
Qed.

Lemma indexOf_absent_ids l id :
  indexOf id l = -1 ↔ id ∉ (Item.id <$> l).
Proof.
  rewrite indexOf_absent, list_elem_of_fmap. split.
  - intros Hall (e & -> & He). by apply (Hall e).
  - intros Hnot e He Heq. apply Hnot. by exists e.
Qed.

Lemma findIndexFrom_hole l id (rest : list (cell Item)) (k : Z) :
  Js.findIndexFrom (λ item, i ← get_id item; Normal (String.eqb i id))
                   ((defined <$> l) ++ undefined :: rest) k
  = if decide (indexOf id l = -1) then Throw TypeError
    else Normal (k + indexOf id l).
Proof.
  revert k. induction l as [|e l IH]; intros k; [done|].
  cbn. rewrite indexOf_cons.
  destruct (String.eqb_spec (Item.id e) id) as [Heq|Hne].
  - repeat case_decide; f_equal; (done || lia).
  - rewrite IH. pose proof (indexOf_range l id).
    repeat case_decide; f_equal; (done || lia).
Qed.

Lemma find_defined l id :
  Js.find (λ item, i ← get_id item; Normal (String.eqb i id)) (defined <$> l)
  = Normal (if decide (indexOf id l = -1) then undefined
            else Js.index (defined <$> l) (indexOf id l)).
Proof.
  induction l as [|e l IH]; [done|].
  cbn. rewrite indexOf_cons.
  destruct (String.eqb_spec (Item.id e) id) as [Heq|Hne].
  - rewrite !(decide_True (P := Item.id e = id)) by done.
    by rewrite decide_False by lia.
  - rewrite IH. rewrite !(decide_False (P := Item.id e = id)) by done.
    pose proof (indexOf_range l id) as Hrange.
    destruct (decide (indexOf id l = -1)) as [Hnone|Hsome].
    + by rewrite decide_True by done.
    + rewrite decide_False by lia. f_equal. unfold Js.index.
      destruct (Z.ltb_spec (indexOf id l) 0) as [|_]; [lia|].
      destruct (Z.ltb_spec (indexOf id l + 1) 0) as [|_]; [lia|].
      by replace (Z.to_nat (indexOf id l + 1))
        with (S (Z.to_nat (indexOf id l))) by lia.
Qed.

Lemma index_defined l (i : Z) e :
  0 ≤ i → l !! Z.to_nat i = Some e → Js.index (defined <$> l) i = defined e.
Proof.
  intros Hi He. apply index_lookup; [done|].
  by rewrite list_lookup_fmap, He.
Qed.

(** Deleting [id] leaves every other id resolving to the same entity, at
    an index that is not larger. *)
Lemma indexOf_others l id id' :
  id' ≠ id →
  (indexOf id' (others id l) = -1 ↔ indexOf id' l = -1) ∧
  indexOf id' (others id l) ≤ indexOf id' l ∧
  (indexOf id' l ≠ -1 →
   others id l !! Z.to_nat (indexOf id' (others id l))
   = l !! Z.to_nat (indexOf id' l)).
Proof.
  intros Hne. induction l as [|e l (IHnone & IHle & IHlook)].
  { done. }
  pose proof (indexOf_range l id') as Hr.
  pose proof (indexOf_range (others id l) id') as Hr'.
  cbn [others List.filter]. fold (others id l).
  destruct (String.eqb_spec (Item.id e) id) as [Heq|Hneq]; cbn [negb].
  - rewrite (indexOf_cons e l). rewrite decide_False by congruence.
    split; [|split].
    + rewrite IHnone. case_decide; lia.
    + case_decide; lia.
    + case_decide; [done|]. intros _. rewrite IHlook by done.
      by replace (Z.to_nat (indexOf id' l + 1))
        with (S (Z.to_nat (indexOf id' l))) by lia.
  - rewrite !indexOf_cons.
    destruct (decide (Item.id e = id')) as [Hhit|Hmiss].
    + done.
    + split; [|split].
      * repeat case_decide; lia.
      * repeat case_decide; lia.
      * destruct (decide (indexOf id' l = -1)) as [Hnone|Hsome]; [done|].
        intros _. rewrite decide_False by tauto.
        replace (Z.to_nat (indexOf id' (others id l) + 1))
          with (S (Z.to_nat (indexOf id' (others id l)))) by lia.
        replace (Z.to_nat (indexOf id' l + 1))
          with (S (Z.to_nat (indexOf id' l))) by lia.
        cbn. by apply IHlook.
Qed.

Lemma indexOf_others_self l id : indexOf id (others id l) = -1.
Proof.
  apply indexOf_absent. intros e He. by apply others_elem_of in He as [_ ?].
Qed.

Lemma indexOf_app l l2 id :
  indexOf id (l ++ l2)
  = if decide (indexOf id l = -1)
    then if decide (indexOf id l2 = -1) then -1
         else Js.length l + indexOf id l2
    else indexOf id l.
Proof.
  induction l as [|e l IH].
  - cbn [app]. rewrite decide_True by done. unfold Js.length. cbn.
    case_decide; lia.
  - cbn [app]. rewrite !indexOf_cons, IH.
    pose proof (indexOf_range l id). pose proof (indexOf_range l2 id).
    unfold Js.length in *. cbn [List.length].
    repeat case_decide; lia.
Qed.

(** With unique ids an entity is found where it stands. *)
Lemma indexOf_lookup_NoDup l (k : nat) e :
  NoDup (Item.id <$> l) → l !! k = Some e →
  indexOf (Item.id e) l = Z.of_nat k.
Proof.
  intros Hnodup He.
  assert (indexOf (Item.id e) l ≠ -1) as Hfound.
  { rewrite indexOf_absent. intros Hall.
    apply (Hall e); [|done]. by apply list_elem_of_lookup_2 in He. }
  destruct (indexOf_found l _ Hfound) as (e' & He' & Hid).
  pose proof (indexOf_range l (Item.id e)) as Hr.
  assert (Z.to_nat (indexOf (Item.id e) l) = k) as Hk; [|lia].
  apply (NoDup_lookup (Item.id <$> l) _ _ (Item.id e)); [done|..].
  - rewrite list_lookup_fmap, He'. cbn. by rewrite Hid.
  - by rewrite list_lookup_fmap, He.
Qed.

End IdentityFacts.

(** X4.  On a collection without holes [findIndexById] never throws: it
    returns -1 exactly when no entity carries the id, and otherwise the
    index of the first entity carrying it.  When a hole follows the
    entities, an id found before the hole still resolves, while an id not
    found before it makes the lookup throw a TypeError. *)
Theorem X4_findIndexById_first_match_or_minus_one
  (l : list Item) (id : string) (rest : list (cell Item)) :
  ∃ i : Z,
    AppRefactored.findIndexById (defined <$> l) id = Normal i ∧
    (i = -1 ↔ id ∉ (Item.id <$> l)) ∧
    (i ≠ -1 →
     0 ≤ i < Js.length l ∧
     ∃ e, l !! Z.to_nat i = Some e ∧ Item.id e = id ∧
          ∀ (k : nat) e', (k < Z.to_nat i)%nat → l !! k = Some e' →
                          Item.id e' ≠ id) ∧
    (id ∈ (Item.id <$> l) →
     AppRefactored.findIndexById ((defined <$> l) ++ undefined :: rest) id
     = Normal i) ∧
    (id ∉ (Item.id <$> l) →
     AppRefactored.findIndexById ((defined <$> l) ++ undefined :: rest) id
     = Throw TypeError).
Proof.
  exists (indexOf id l). rewrite findIndexById_defined.
  split; [done|]. split; [apply indexOf_absent_ids|].
  unfold AppRefactored.findIndexById, Js.findIndex.
  rewrite findIndexFrom_hole.
  split; [|split].
  - intros Hfound. pose proof (indexOf_range l id). split; [lia|].
    destruct (indexOf_found l id Hfound) as (e & He & Hid).
    exists e. split; [done|]. split; [done|]. by apply indexOf_first.
  - intros Hin. rewrite decide_False; [done|].
    rewrite indexOf_absent_ids. auto.
  - intros Hnot. rewrite decide_True; [done|].
    by rewrite indexOf_absent_ids.
Qed.

Lemma X4_findIndexById_first_match_or_minus_one_witness :
  ("item-2" ∈ (Item.id <$> twoItems) ∧
   AppRefactored.findIndexById ((defined <$> twoItems) ++ [undefined]) "item-2"
   = Normal 1) ∧
  (("item-9" ∉ (Item.id <$> twoItems)) ∧
   AppRefactored.findIndexById ((defined <$> twoItems) ++ [undefined]) "item-9"
   = Throw TypeError).
Proof.
  assert ("item-2" ∈ (Item.id <$> twoItems)) as Hin.
  { apply (bool_decide_unpack _). vm_compute. exact I. }
  assert ("item-9" ∉ (Item.id <$> twoItems)) as Hnot.
  { apply (bool_decide_unpack _). vm_compute. exact I. }
  destruct (X4_findIndexById_first_match_or_minus_one twoItems "item-2" [])
    as (i & Hi & _ & _ & Hhole & _).
  destruct (X4_findIndexById_first_match_or_minus_one twoItems "item-9" [])
    as (j & _ & _ & _ & _ & Hthrow).
  split.
  - split; [exact Hin|]. rewrite (Hhole Hin).
    injection Hi as <-. reflexivity.
  - split; [exact Hnot|]. exact (Hthrow Hnot).
Defined.



(** X6.  Identity survives deletion: after [deleteItem(id)], every other
    id resolves exactly when it resolved before, to the same entity, at an
    index that is not larger than before. *)
Theorem X6_other_ids_resolve_to_same_entity_after_delete
  (l : list Item) (id id' : string) :
  id' ≠ id →
  ∃ l' (i i' : Z),
    deleteItem identityMode id (defined <$> l) = Normal (defined <$> l') ∧
    AppRefactored.findIndexById (defined <$> l) id' = Normal i ∧
    AppRefactored.findIndexById (defined <$> l') id' = Normal i' ∧
    (i' = -1 ↔ i = -1) ∧
    i' ≤ i ∧
    (i ≠ -1 → l' !! Z.to_nat i' = l !! Z.to_nat i).
Proof.
  intros Hne. exists (others id l), (indexOf id' l), (indexOf id' (others id l)).
  rewrite deleteItem_identity, !findIndexById_defined.
  split; [done|]. split; [done|]. split; [done|].
  apply (indexOf_others l id id' Hne).
Qed.

Lemma X6_other_ids_resolve_to_same_entity_after_delete_witness :
  "item-2" ≠ "item-1" ∧
  ∃ l' (i i' : Z),
    deleteItem identityMode "item-1" (defined <$> twoItems)
    = Normal (defined <$> l') ∧
    AppRefactored.findIndexById (defined <$> twoItems) "item-2" = Normal i ∧
    AppRefactored.findIndexById (defined <$> l') "item-2" = Normal i' ∧
    i' ≤ i.
Proof.
  assert ("item-2" ≠ "item-1") as Hne by discriminate.
  split; [exact Hne|].
  destruct (X6_other_ids_resolve_to_same_entity_after_delete
              twoItems "item-1" "item-2" Hne)
    as (l' & i & i' & Hdel & Hi & Hi' & _ & Hle & _).
  exists l', i, i'. exact (conj Hdel (conj Hi (conj Hi' Hle))).
Defined.

(** X7.  A deleted id is detected as stale: after [deleteItem(id)] the id
    resolves to -1, and a reorder request naming it as active or as over
    reference is dropped with the null result and the collection
    unchanged. *)
Theorem X7_deleted_id_is_stale
  (l : list Item) (id other : string) :
  ∃ l',
    deleteItem identityMode id (defined <$> l) = Normal (defined <$> l') ∧
    AppRefactored.findIndexById (defined <$> l') id = Normal (-1) ∧
    handleDragEnd identityMode (defined <$> l')
      {| active := id; over := object other |}
    = Normal (defined <$> l', null) ∧
    handleDragEnd identityMode (defined <$> l')
      {| active := other; over := object id |}
    = Normal (defined <$> l', null).
Proof.
  exists (others id l).
  rewrite deleteItem_identity, findIndexById_defined, indexOf_others_self.
  split; [done|]. split; [done|].
  rewrite !handleDragEnd_identity, indexOf_others_self.
  by rewrite !decide_True by auto.
Qed.

(** X8.  Resolving after an insert.  An entity appended under a new id is
    found at the last index.  An entity appended under an id already in
    use is never found by its id: the id keeps resolving to the older
    entity.  Every other id resolves as before the insert. *)
Theorem X8_resolve_after_insert (l : list Item) (e : Item) :
  (Item.id e ∉ (Item.id <$> l) →
   AppRefactored.findIndexById (addItem (defined e) (defined <$> l)) (Item.id e)
   = Normal (Js.length l)) ∧
  (Item.id e ∈ (Item.id <$> l) →
   AppRefactored.findIndexById (addItem (defined e) (defined <$> l)) (Item.id e)
   = AppRefactored.findIndexById (defined <$> l) (Item.id e) ∧
   AppRefactored.findIndexById (defined <$> l) (Item.id e)
   ≠ Normal (Js.length l)) ∧
  (∀ id : string, id ≠ Item.id e →
   AppRefactored.findIndexById (addItem (defined e) (defined <$> l)) id
   = AppRefactored.findIndexById (defined <$> l) id).
Proof.
  unfold addItem.
  replace ((defined <$> l) ++ [defined e]) with (defined <$> (l ++ [e]))
    by (by rewrite fmap_app).
  setoid_rewrite findIndexById_defined. setoid_rewrite indexOf_app.
  assert (∀ id, indexOf id [e] = if decide (Item.id e = id) then 0 else -1)
    as Hone by (intros id; rewrite indexOf_cons; by repeat case_decide).
  split; [|split].
  - intros Hnew. apply indexOf_absent_ids in Hnew. rewrite !Hone.
    rewrite !(decide_True (P := Item.id e = Item.id e)) by done.
    rewrite decide_True by done. rewrite decide_False by lia.
    f_equal. lia.
  - intros Hused.
    assert (indexOf (Item.id e) l ≠ -1) as Hfound
      by (rewrite indexOf_absent_ids; auto).
    rewrite decide_False by done. split; [done|].
    pose proof (indexOf_range l (Item.id e)). intros [= Heq]. lia.
  - intros id Hid. rewrite !Hone.
    rewrite (decide_False (P := Item.id e = id)) by done.
    repeat case_decide; f_equal; (done || lia).
Qed.

Lemma X8_resolve_after_insert_witness :
  (("item-3" ∉ (Item.id <$> twoItems)) ∧
   AppRefactored.findIndexById
     (addItem (defined {| Item.id := "item-3"; Item.value := "Položka C" |})
              (defined <$> twoItems)) "item-3"
   = Normal 2) ∧
  ("item-1" ∈ (Item.id <$> twoItems) ∧
   AppRefactored.findIndexById
     (addItem (defined {| Item.id := "item-1"; Item.value := "Položka E" |})
              (defined <$> twoItems)) "item-1"
   = AppRefactored.findIndexById (defined <$> twoItems) "item-1") ∧
  ("item-2" ≠ "item-3" ∧
   AppRefactored.findIndexById
     (addItem (defined {| Item.id := "item-3"; Item.value := "Položka C" |})
              (defined <$> twoItems)) "item-2"
   = AppRefactored.findIndexById (defined <$> twoItems) "item-2").
Proof.
  assert ("item-3" ∉ (Item.id <$> twoItems)) as Hnew.
  { apply (bool_decide_unpack _). vm_compute. exact I. }
  assert ("item-1" ∈ (Item.id <$> twoItems)) as Hused.
  { apply (bool_decide_unpack _). vm_compute. exact I. }
  assert ("item-2" ≠ "item-3") as Hne by discriminate.
  destruct (X8_resolve_after_insert twoItems
              {| Item.id := "item-3"; Item.value := "Položka C" |})
    as (Hlast & _ & Hother).
  destruct (X8_resolve_after_insert twoItems
              {| Item.id := "item-1"; Item.value := "Položka E" |})
    as (_ & Hshadow & _).
  exact (conj (conj Hnew (Hlast Hnew))
        (conj (conj Hused (proj1 (Hshadow Hused)))
              (conj Hne (Hother "item-2" Hne)))).
Defined.

(** ** The shape of a move *)

Section MoveFacts.
Context {A : Type}.
Implicit Types l : list A.

Lemma without_length (i : nat) l :
  (i < List.length l)%nat →
  List.length (without i l) = (List.length l - 1)%nat.
Proof.
  intros Hi. unfold without. rewrite length_app, length_take, length_drop. lia.
Qed.

Lemma move_length (i j : nat) l : List.length (move i j l) = List.length l.
Proof. apply Permutation_length, move_Permutation. Qed.

(** Where each cell of a moved collection comes from. *)
Lemma move_lookup_origin (i j k : nat) l :
  (i < List.length l)%nat → (j < List.length l)%nat →
  move i j l !! k = l !! origin i j k.
Proof.
  intros Hi Hj. unfold move.
  destruct (lookup_lt_is_Some_2 l i Hi) as [x Hx]. rewrite Hx.
  pose proof (without_length i l Hi) as Hlen.
  assert (List.length (take j (without i l)) = j) as Htake
    by (rewrite length_take; lia).
  unfold origin.
  destruct (decide (k = j)) as [->|Hkj].
  { rewrite Hx. apply list_lookup_middle. done. }
  destruct (decide (k < j)%nat) as [Hlt|Hge].
  - rewrite lookup_app_l by lia. rewrite lookup_take_lt by done.
    rewrite without_lookup by done.
    repeat case_decide; (done || lia).
  - rewrite lookup_app_r by lia. rewrite Htake.
    rewrite lookup_cons_ne_0 by lia.
    rewrite lookup_drop, without_lookup by done.
    repeat case_decide; f_equal; lia.
Qed.

Lemma origin_inverse (i j k : nat) :
  origin i j (origin j i k) = k.
Proof. unfold origin. repeat case_decide; lia. Qed.

(** Moving back undoes a move. *)
Lemma move_back (i j : nat) l :
  (i < List.length l)%nat → (j < List.length l)%nat →
  move j i (move i j l) = l.
Proof.
  intros Hi Hj. apply list_eq. intros k.
  rewrite move_lookup_origin by (rewrite move_length; done).
  rewrite move_lookup_origin by done.
  by rewrite origin_inverse.
Qed.

End MoveFacts.

Section RelativeIndices.
Context {A : Type}.
Implicit Types arr : list (cell A).

(** [arrayMove] reads [from] through [splice]'s normalisation and [to]
    through the position computed before the removal. *)
Lemma arrayMove_from_relative arr (from to : Z) :
  arrayMove arr from to
  = arrayMove arr (relativeStart (Js.length arr) from) to.
Proof.
  pose proof (relativeStart_bounds (Js.length arr) from) as Hb.
  assert (relativeStart (Js.length arr) (relativeStart (Js.length arr) from)
          = relativeStart (Js.length arr) from) as Hidem.
  { apply relativeStart_in_range. unfold Js.length in *. lia. }
  destruct (decide (relativeStart (Js.length arr) from < Js.length arr))
    as [Hlt|Hge].
  - destruct (lookup_lt_is_Some_2 arr
                (Z.to_nat (relativeStart (Js.length arr) from))) as [x Hx].
    { unfold Js.length in *. lia. }
    rewrite (arrayMove_removed arr from to x) by done.
    rewrite (arrayMove_removed arr _ to x) by (by rewrite Hidem).
    by rewrite Hidem.
  - rewrite (arrayMove_nothing_removed arr from to) by lia.
    by rewrite (arrayMove_nothing_removed arr _ to) by (rewrite Hidem; lia).
Qed.

Lemma arrayMove_to_insertion arr (from to to' : Z) :
  insertionStart arr to = insertionStart arr to' →
  arrayMove arr from to = arrayMove arr from to'.
Proof.
  intros Heq.
  destruct (decide (relativeStart (Js.length arr) from < Js.length arr))
    as [Hlt|Hge].
  - pose proof (relativeStart_bounds (Js.length arr) from) as Hb.
    destruct (lookup_lt_is_Some_2 arr
                (Z.to_nat (relativeStart (Js.length arr) from))) as [x Hx].
    { unfold Js.length in *. lia. }
    by rewrite !(arrayMove_removed arr from _ x), Heq by done.
  - by rewrite !(arrayMove_nothing_removed arr from _), Heq by lia.
Qed.

(** An index of -1 designates the last cell. *)
Lemma arrayMove_from_minus_one arr (to : Z) :
  0 < Js.length arr →
  arrayMove arr (-1) to = arrayMove arr (Js.length arr - 1) to.
Proof.
  intros Hlen. rewrite arrayMove_from_relative. f_equal.
  unfold relativeStart. cbn. lia.
Qed.

Lemma arrayMove_to_minus_one arr (from : Z) :
  0 < Js.length arr →
  arrayMove arr from (-1) = arrayMove arr from (Js.length arr - 1).
Proof.
  intros Hlen. apply arrayMove_to_insertion. unfold insertionStart. cbn.
  case_match; lia.
Qed.

End RelativeIndices.

Lemma others_length_NoDup (l : list Item) (id : string) :
  NoDup (Item.id <$> l) → id ∈ (Item.id <$> l) →
  List.length (others id l) = (List.length l - 1)%nat.
Proof.
  induction l as [|e l IH]; intros Hnodup Hin.
  { by apply elem_of_nil in Hin. }
  cbn in Hnodup. apply NoDup_cons in Hnodup as [Hfresh Hnodup].
  cbn [others List.filter]. fold (others id l).
  destruct (String.eqb_spec (Item.id e) id) as [Heq|Hne]; cbn [negb].
  - assert (others id l = l) as ->; [|cbn; lia].
    unfold others. apply forallb_filter_id, forallb_forall. intros e' He'.
    apply negb_true_iff, String.eqb_neq. intros Heq'. apply Hfresh.
    rewrite Heq, <- Heq'. apply list_elem_of_fmap_2. by apply list_elem_of_In.
  - cbn in Hin. apply elem_of_cons in Hin as [Hin|Hin]; [congruence|].
    cbn [List.length]. rewrite IH by done.
    assert (0 < List.length l)%nat; [|lia].
    destruct l; [by apply elem_of_nil in Hin|cbn; lia].
Qed.

(** X9.  The shape of an accepted move in index mode.  With both indices
    inside the collection and different, [handleDragEnd] returns a
    collection of the same length in which the cell of [oldIndex] stands at
    [newIndex], the cells between the two positions have shifted by one
    towards the old position, and every other cell is where it was:
    the cell at position [k] comes from position [origin oldIndex newIndex
    k]. *)
Theorem X9_move_shifts_the_cells_in_between
  {T : Type} (items : list (cell T)) (oldIndex newIndex : Z) :
  0 ≤ oldIndex < Js.length items → 0 ≤ newIndex < Js.length items →
  oldIndex ≠ newIndex →
  ∃ items',
    handleDragEnd (NoFinder T) items
      {| active := oldIndex; over := object newIndex |}
    = Normal (items',
              object {| oldIndex := oldIndex; newIndex := newIndex;
                        activeId := oldIndex; overId := newIndex |}) ∧
    List.length items' = List.length items ∧
    items' !! Z.to_nat newIndex = items !! Z.to_nat oldIndex ∧
    ∀ k : nat,
      items' !! k = items !! origin (Z.to_nat oldIndex) (Z.to_nat newIndex) k.
Proof.
  intros Hold Hnew Hne. rewrite handleDragEnd_index.
  rewrite decide_False by lia.
  rewrite arrayMove_move_cells by done.
  unfold Js.length in *.
  eexists. split; [done|]. split; [apply move_length|].
  split; [apply move_lookup; lia|].
  intros k. apply move_lookup_origin; lia.
Qed.

Lemma X9_move_shifts_the_cells_in_between_witness :
  0 ≤ 0 < Js.length (defined <$> INITIAL_ITEMS) ∧
  0 ≤ 2 < Js.length (defined <$> INITIAL_ITEMS) ∧
  (0 : Z) ≠ 2 ∧
  ∃ items',
    handleDragEnd (NoFinder string) (defined <$> INITIAL_ITEMS)
      {| active := 0; over := object 2 |}
    = Normal (items',
              object {| oldIndex := 0; newIndex := 2;
                        activeId := 0; overId := 2 |}) ∧
    items' !! 2%nat = (defined <$> INITIAL_ITEMS) !! 0%nat.
Proof.
  assert (0 ≤ 0 < Js.length (defined <$> INITIAL_ITEMS)) as H0
    by (vm_compute; split; [discriminate|reflexivity]).
  assert (0 ≤ 2 < Js.length (defined <$> INITIAL_ITEMS)) as H2
    by (vm_compute; split; [discriminate|reflexivity]).
  assert ((0 : Z) ≠ 2) as Hne by lia.
  destruct (X9_move_shifts_the_cells_in_between
              (defined <$> INITIAL_ITEMS) 0 2 H0 H2 Hne)
    as (items' & Hrun & _ & Hat & _).
  refine (conj H0 (conj H2 (conj Hne _))).
  exists items'. exact (conj Hrun Hat).
Defined.

(** X10.  Moving back undoes a move: in index mode, with both indices
    inside the collection and different, a move from [i] to [j] followed by
    a move from [j] to [i] returns the collection it started from. *)
Theorem X10_move_back_restores_the_collection
  {T : Type} (items : list (cell T)) (i j : Z) :
  0 ≤ i < Js.length items → 0 ≤ j < Js.length items → i ≠ j →
  ∃ items1 result1 result2,
    handleDragEnd (NoFinder T) items {| active := i; over := object j |}
    = Normal (items1, object result1) ∧
    handleDragEnd (NoFinder T) items1 {| active := j; over := object i |}
    = Normal (items, object result2).
Proof.
  intros Hi Hj Hne. rewrite handleDragEnd_index.
  rewrite decide_False by lia. rewrite arrayMove_move_cells by done.
  eexists _, _, _. split; [done|].
  rewrite handleDragEnd_index. rewrite decide_False by lia.
  rewrite arrayMove_move_cells
    by (unfold Js.length in *; rewrite move_length; done).
  rewrite move_back by (unfold Js.length in *; lia). done.
Qed.

Lemma X10_move_back_restores_the_collection_witness :
  0 ≤ 3 < Js.length (defined <$> INITIAL_ITEMS) ∧
  0 ≤ 1 < Js.length (defined <$> INITIAL_ITEMS) ∧
  (3 : Z) ≠ 1 ∧
  ∃ items1 result1 result2,
    handleDragEnd (NoFinder string) (defined <$> INITIAL_ITEMS)
      {| active := 3; over := object 1 |}
    = Normal (items1, object result1) ∧
    handleDragEnd (NoFinder string) items1
      {| active := 1; over := object 3 |}
    = Normal (defined <$> INITIAL_ITEMS, object result2).
Proof.
  assert (0 ≤ 3 < Js.length (defined <$> INITIAL_ITEMS)) as H3
    by (vm_compute; split; [discriminate|reflexivity]).
  assert (0 ≤ 1 < Js.length (defined <$> INITIAL_ITEMS)) as H1
    by (vm_compute; split; [discriminate|reflexivity]).
  assert ((3 : Z) ≠ 1) as Hne by lia.
  exact (conj H3 (conj H1 (conj Hne
           (X10_move_back_restores_the_collection
              (defined <$> INITIAL_ITEMS) 3 1 H3 H1 Hne)))).
Defined.

(** X11.  With unique ids, an accepted move in identity mode puts the
    active entity where the over entity stood: afterwards the active id
    resolves to the index the over id had before, the over id resolves to
    the neighbouring index on the side the active entity came from, and
    the ids are still unique. *)
Theorem X11_active_resolves_to_the_over_position
  (l : list Item) (a o : string) :
  NoDup (Item.id <$> l) →
  a ≠ o → a ∈ (Item.id <$> l) → o ∈ (Item.id <$> l) →
  ∃ l' (i j : Z),
    AppRefactored.findIndexById (defined <$> l) a = Normal i ∧
    AppRefactored.findIndexById (defined <$> l) o = Normal j ∧
    handleDragEnd identityMode (defined <$> l)
      {| active := a; over := object o |}
    = Normal (defined <$> l',
              object {| oldIndex := i; newIndex := j;
                        activeId := a; overId := o |}) ∧
    NoDup (Item.id <$> l') ∧
    AppRefactored.findIndexById (defined <$> l') a = Normal j ∧
    AppRefactored.findIndexById (defined <$> l') o
    = Normal (if decide (i < j) then j - 1 else j + 1).
Proof.
  intros Hnodup Hne Ha Ho.
  assert (indexOf a l ≠ -1) as Hfa by (rewrite indexOf_absent_ids; auto).
  assert (indexOf o l ≠ -1) as Hfo by (rewrite indexOf_absent_ids; auto).
  pose proof (indexOf_range l a) as Hra.
  pose proof (indexOf_range l o) as Hro.
  destruct (indexOf_found l a Hfa) as (ea & Hea & Hida).
  destruct (indexOf_found l o Hfo) as (eo & Heo & Hido).
  set (i := indexOf a l) in *. set (j := indexOf o l) in *.
  assert (i ≠ j) as Hij.
  { intros Heq. rewrite Heq, Heo in Hea. congruence. }
  unfold Js.length in *.
  set (l' := move (Z.to_nat i) (Z.to_nat j) l).
  assert (NoDup (Item.id <$> l')) as Hnodup'.
  { unfold l'. by rewrite move_Permutation. }
  exists l', i, j. rewrite !findIndexById_defined, handleDragEnd_identity.
  rewrite decide_False by (intros [?|[?|?]]; done).
  split; [done|]. split; [done|]. split; [done|]. split; [done|]. split.
  - f_equal. rewrite <- Hida.
    rewrite (indexOf_lookup_NoDup l' (Z.to_nat j) ea); [lia|done|].
    unfold l'. rewrite move_lookup by lia. done.
  - f_equal. rewrite <- Hido.
    case_decide.
    + rewrite (indexOf_lookup_NoDup l' (Z.to_nat (j - 1)) eo); [lia|done|].
      unfold l'. rewrite move_lookup_origin by lia. rewrite <- Heo.
      f_equal. unfold origin. repeat case_decide; lia.
    + rewrite (indexOf_lookup_NoDup l' (Z.to_nat (j + 1)) eo); [lia|done|].
      unfold l'. rewrite move_lookup_origin by lia. rewrite <- Heo.
      f_equal. unfold origin. repeat case_decide; lia.
Qed.

Lemma X11_active_resolves_to_the_over_position_witness :
  NoDup (Item.id <$> twoItems) ∧
  "item-2" ≠ "item-1" ∧
  "item-2" ∈ (Item.id <$> twoItems) ∧
  "item-1" ∈ (Item.id <$> twoItems) ∧
  ∃ l',
    handleDragEnd identityMode (defined <$> twoItems)
      {| active := "item-2"; over := object "item-1" |}
    = Normal (defined <$> l',
              object {| oldIndex := 1; newIndex := 0;
                        activeId := "item-2"; overId := "item-1" |}) ∧
    AppRefactored.findIndexById (defined <$> l') "item-2" = Normal 0.
Proof.
  assert (NoDup (Item.id <$> twoItems)) as Hnodup.
  { apply (bool_decide_unpack _). vm_compute. exact I. }
  assert ("item-2" ≠ "item-1") as Hne by discriminate.
  assert ("item-2" ∈ (Item.id <$> twoItems)) as Ha.
  { apply (bool_decide_unpack _). vm_compute. exact I. }
  assert ("item-1" ∈ (Item.id <$> twoItems)) as Ho.
  { apply (bool_decide_unpack _). vm_compute. exact I. }
  destruct (X11_active_resolves_to_the_over_position
              twoItems "item-2" "item-1" Hnodup Hne Ha Ho)
    as (l' & i & j & Hi & Hj & Hrun & _ & Hresolved & _).
  injection Hi as <-. injection Hj as <-.
  refine (conj Hnodup (conj Hne (conj Ha (conj Ho _)))).
  exists l'. exact (conj Hrun Hresolved).
Defined.

(** X12.  Moves and removals keep the ids unique.  On a collection with
    unique ids, whatever the reorder request, [handleDragEnd] returns a
    collection of the same length with unique ids; whatever the id,
    [deleteItem] returns a collection with unique ids that is shorter by
    exactly one when the id was present and is unchanged otherwise. *)
Theorem X12_move_and_remove_keep_ids_unique (l : list Item) :
  NoDup (Item.id <$> l) →
  (∀ event : DragEndEvent string, ∃ l' result,
      handleDragEnd identityMode (defined <$> l) event
      = Normal (defined <$> l', result) ∧
      NoDup (Item.id <$> l') ∧
      List.length l' = List.length l) ∧
  (∀ id : string, ∃ l',
      deleteItem identityMode id (defined <$> l) = Normal (defined <$> l') ∧
      NoDup (Item.id <$> l') ∧
      (id ∈ (Item.id <$> l) → List.length l' = (List.length l - 1)%nat) ∧
      (id ∉ (Item.id <$> l) → l' = l)).
Proof.
  intros Hnodup. split.
  - intros [a [|o]].
    + exists l, null. by rewrite handleDragEnd_null.
    + rewrite handleDragEnd_identity. case_decide.
      * by exists l, null.
      * eexists _, _. split; [done|].
        rewrite move_length. split; [|done]. by rewrite move_Permutation.
  - intros id. exists (others id l). rewrite deleteItem_identity.
    split; [done|]. split; [|split].
    + assert ((Item.id <$> others id l) `sublist_of` (Item.id <$> l)) as Hsub
        by (apply fmap_sublist, others_sublist).
      by apply (sublist_NoDup _ _ Hnodup).
    + by apply others_length_NoDup.
    + intros Hnot. unfold others. apply forallb_filter_id, forallb_forall.
      intros e He. apply negb_true_iff, String.eqb_neq. intros Heq.
      apply Hnot. rewrite <- Heq. apply list_elem_of_fmap_2.
      by apply list_elem_of_In.
Qed.

Lemma X12_move_and_remove_keep_ids_unique_witness :
  NoDup (Item.id <$> twoItems) ∧
  "item-1" ∈ (Item.id <$> twoItems) ∧
  ∃ l',
    deleteItem identityMode "item-1" (defined <$> twoItems)
    = Normal (defined <$> l') ∧
    NoDup (Item.id <$> l') ∧
    List.length l' = 1%nat.
Proof.
  assert (NoDup (Item.id <$> twoItems)) as Hnodup.
  { apply (bool_decide_unpack _). vm_compute. exact I. }
  assert ("item-1" ∈ (Item.id <$> twoItems)) as Hin.
  { apply (bool_decide_unpack _). vm_compute. exact I. }
  destruct (X12_move_and_remove_keep_ids_unique twoItems Hnodup) as [_ Hdel].
  destruct (Hdel "item-1") as (l' & Hrun & Hnodup' & Hlen & _).
  refine (conj Hnodup (conj Hin _)).
  exists l'. exact (conj Hrun (conj Hnodup' (Hlen Hin))).
Defined.

(** X13.  Index mode can punch a hole into the collection.  When
    [oldIndex] lies at or beyond the end and the request is not dropped,
    [handleDragEnd] returns a non-null result and a collection that holds
    all the former cells plus one [undefined] cell: it is longer by one
    and no entity is lost or duplicated.  The drag handler of [App.jsx]
    does the same. *)
Theorem X13_old_index_beyond_the_end_adds_a_hole
  (items : list (cell string)) (oldIndex newIndex : Z) :
  Js.length items ≤ oldIndex → newIndex ≠ oldIndex → newIndex ≠ -1 →
  (∃ items',
      handleDragEnd (NoFinder string) items
        {| active := oldIndex; over := object newIndex |}
      = Normal (items',
                object {| oldIndex := oldIndex; newIndex := newIndex;
                          activeId := oldIndex; overId := newIndex |}) ∧
      items' ≡ₚ undefined :: items ∧
      List.length items' = S (List.length items) ∧
      ∀ e : string, occurrences e items' = occurrences e items) ∧
  (∀ (now : string) (st : App.State),
      App.wrongItems st = items →
      ∃ st',
        App.handleWrongDragEnd now
          {| active := oldIndex; over := object newIndex |} st = Normal st' ∧
        App.wrongItems st' ≡ₚ undefined :: items).
Proof.
  intros Hold Hne Hnew.
  assert (Js.length items ≤ relativeStart (Js.length items) oldIndex) as Hrel.
  { unfold relativeStart, Js.length in *. case_match; lia. }
  pose proof (arrayMove_Permutation_undefined items oldIndex newIndex Hrel)
    as Hperm.
  split.
  - rewrite handleDragEnd_index.
    rewrite decide_False by (unfold Js.length in *; lia).
    eexists. split; [done|]. split; [done|].
    split; [by rewrite Hperm|]. intros e. apply arrayMove_occurrences.
  - intros now st <-. unfold App.handleWrongDragEnd. cbn [over active].
    destruct (Z.eqb_spec oldIndex newIndex) as [|_]; [congruence|].
    cbn [negb]. eexists. split; [done|]. done.
Qed.

Lemma X13_old_index_beyond_the_end_adds_a_hole_witness :
  Js.length (defined <$> INITIAL_ITEMS) ≤ 4 ∧ (0 : Z) ≠ 4 ∧ (0 : Z) ≠ -1 ∧
  ∃ items',
    handleDragEnd (NoFinder string) (defined <$> INITIAL_ITEMS)
      {| active := 4; over := object 0 |}
    = Normal (items',
              object {| oldIndex := 4; newIndex := 0;
                        activeId := 4; overId := 0 |}) ∧
    List.length items' = 5%nat.
Proof.
  assert (Js.length (defined <$> INITIAL_ITEMS) ≤ 4) as Hold
    by (vm_compute; discriminate).
  assert ((0 : Z) ≠ 4) as Hne by lia.
  assert ((0 : Z) ≠ -1) as Hnew by lia.
  destruct (X13_old_index_beyond_the_end_adds_a_hole
              (defined <$> INITIAL_ITEMS) 4 0 Hold Hne Hnew)
    as [(items' & Hrun & _ & Hlen & _) _].
  refine (conj Hold (conj Hne (conj Hnew _))).
  exists items'. exact (conj Hrun Hlen).
Defined.

(** X14.  Stale ids in [App.jsx].  Its identity-mode drag handler does not
    check the result of [findIndex].  On a non-empty collection, an active
    id that no entity carries makes it move the last entity to the
    position of the over entity, and an over id that no entity carries
    makes it move the active entity to the end; in both cases an entry is
    appended to the history.  The handler of [App.refactored.jsx] drops
    both requests and returns its state unchanged. *)
Theorem X14_app_jsx_moves_on_stale_ids
  (l : list Item) (now a o : string)
  (st : App.State) (st' : AppRefactored.State) :
  let st0 := App.setCorrectItems (defined <$> l) st in
  let st0' := AppRefactored.setCorrect (defined <$> l) st' in
  let request := {| active := a; over := object o |} in
  (a ∉ (Item.id <$> l) → o ∈ (Item.id <$> l) →
   ∃ st1 (j : Z),
     AppRefactored.findIndexById (defined <$> l) o = Normal j ∧
     App.handleCorrectDragEnd now request st0 = Normal st1 ∧
     App.correctItems st1
     = defined <$> move (List.length l - 1) (Z.to_nat j) l ∧
     List.length (App.dragHistory st1) = S (List.length (App.dragHistory st)) ∧
     AppRefactored.handleCorrectDragEnd now request st0' = Normal st0') ∧
  (a ∈ (Item.id <$> l) → o ∉ (Item.id <$> l) →
   ∃ st1 (i : Z),
     AppRefactored.findIndexById (defined <$> l) a = Normal i ∧
     App.handleCorrectDragEnd now request st0 = Normal st1 ∧
     App.correctItems st1
     = defined <$> move (Z.to_nat i) (List.length l - 1) l ∧
     List.length (App.dragHistory st1) = S (List.length (App.dragHistory st)) ∧
     AppRefactored.handleCorrectDragEnd now request st0' = Normal st0').
Proof.
  cbn zeta.
  unfold App.handleCorrectDragEnd, AppRefactored.handleCorrectDragEnd.
  cbn [over active App.correctItems App.setCorrectItems
       AppRefactored.correctVariant AppRefactored.setCorrect].
  fold identityMode. rewrite handleDragEnd_identity, !findIndexOf_defined.
  pose proof (indexOf_range l a) as Hra. pose proof (indexOf_range l o) as Hro.
  assert (Js.length (defined <$> l) = Js.length l) as Hlen
    by (unfold Js.length; by rewrite length_fmap).
  split.
  - intros Ha Ho. apply indexOf_absent_ids in Ha.
    assert (indexOf o l ≠ -1) as Hfo by (rewrite indexOf_absent_ids; auto).
    assert (a ≠ o) as Hne by (intros ->; done).
    destruct (String.eqb_spec a o) as [|_]; [done|]. cbn [negb].
    rewrite Ha. rewrite decide_True by auto.
    exists (App.setCorrectItems
              (arrayMove (defined <$> l) (-1) (indexOf o l))
              (App.setDragHistory
                 {| App.type := "correct";
                    App.message := App.movedMessage a (indexOf o l);
                    App.timestamp := now;
                    App.warning := undefined |}
                 (App.setCorrectItems (defined <$> l) st))), (indexOf o l).
    split; [done|]. split; [done|]. split; [|split; [|done]].
    + cbn [App.correctItems App.setCorrectItems].
      rewrite arrayMove_from_minus_one by (unfold Js.length in *; lia).
      rewrite Hlen, arrayMove_move by (unfold Js.length in *; lia).
      do 2 f_equal. unfold Js.length. lia.
    + cbn. rewrite length_app. cbn. lia.
  - intros Ha Ho. apply indexOf_absent_ids in Ho.
    assert (indexOf a l ≠ -1) as Hfa by (rewrite indexOf_absent_ids; auto).
    assert (a ≠ o) as Hne by (intros ->; done).
    destruct (String.eqb_spec a o) as [|_]; [done|]. cbn [negb].
    rewrite Ho. rewrite decide_True by auto.
    exists (App.setCorrectItems
              (arrayMove (defined <$> l) (indexOf a l) (-1))
              (App.setDragHistory
                 {| App.type := "correct";
                    App.message := App.movedMessage a (-1);
                    App.timestamp := now;
                    App.warning := undefined |}
                 (App.setCorrectItems (defined <$> l) st))), (indexOf a l).
    split; [done|]. split; [done|]. split; [|split; [|done]].
    + cbn [App.correctItems App.setCorrectItems].
      rewrite arrayMove_to_minus_one by (unfold Js.length in *; lia).
      rewrite Hlen, arrayMove_move by (unfold Js.length in *; lia).
      do 2 f_equal. unfold Js.length. lia.
    + cbn. rewrite length_app. cbn. lia.
Qed.

Lemma X14_app_jsx_moves_on_stale_ids_witness :
  (("item-9" ∉ (Item.id <$> twoItems)) ∧ "item-1" ∈ (Item.id <$> twoItems) ∧
   App.correctItems
   <$> App.handleCorrectDragEnd "12:00:00"
         {| active := "item-9"; over := object "item-1" |} seedState
   = Normal (defined <$> move 1 0 twoItems)) ∧
  ("item-1" ∈ (Item.id <$> twoItems) ∧ ("item-9" ∉ (Item.id <$> twoItems)) ∧
   App.correctItems
   <$> App.handleCorrectDragEnd "12:00:00"
         {| active := "item-1"; over := object "item-9" |} seedState
   = Normal (defined <$> move 0 1 twoItems)).
Proof.
  assert ("item-9" ∉ (Item.id <$> twoItems)) as Hnot.
  { apply (bool_decide_unpack _). vm_compute. exact I. }
  assert ("item-1" ∈ (Item.id <$> twoItems)) as Hin.
  { apply (bool_decide_unpack _). vm_compute. exact I. }
  destruct (X14_app_jsx_moves_on_stale_ids twoItems "12:00:00" "item-9"
              "item-1" seedState twoItemsState) as [Hactive _].
  destruct (X14_app_jsx_moves_on_stale_ids twoItems "12:00:00" "item-1"
              "item-9" seedState twoItemsState) as [_ Hover].
  destruct (Hactive Hnot Hin) as (st1 & j & Hj & Hrun1 & Hitems1 & _).
  destruct (Hover Hin Hnot) as (st2 & i & Hi & Hrun2 & Hitems2 & _).
  injection Hj as <-. injection Hi as <-.
  change (App.setCorrectItems (defined <$> twoItems) seedState)
    with seedState in Hrun1, Hrun2.
  split.
  - refine (conj Hnot (conj Hin _)). rewrite Hrun1. cbn [fmap completion_fmap].
    f_equal. exact Hitems1.
  - refine (conj Hin (conj Hnot _)). rewrite Hrun2. cbn [fmap completion_fmap].
    f_equal. exact Hitems2.
Defined.

(** ** The ids of the sortable items *)

Lemma wrongIds_seq {T} (items : list (cell T)) :
  Variants.wrongIds items = Z.of_nat <$> seq 0 (List.length items).
Proof. unfold Variants.wrongIds. apply imap_seq_0. Qed.

Lemma identityIds_defined (l : list Item) :
  Variants.identityIds (defined <$> l) = Normal (Item.id <$> l).
Proof. induction l as [|e l IH]; [done|]. cbn. by rewrite IH. Qed.

Lemma others_ids (id : string) (l : list Item) :
  Item.id <$> others id l
  = List.filter (λ i, negb (String.eqb i id)) (Item.id <$> l).
Proof.
  induction l as [|e l IH]; [done|]. cbn.
  destruct (String.eqb (Item.id e) id); cbn; by rewrite <- IH.
Qed.

(** X15.  What a deletion does to the ids handed to the sortable context.
    In index mode the ids are the positions 0 .. L-1, so deleting the cell
    at any index inside the collection removes the id L-1 from the id
    list, and every cell behind the deleted one is henceforth known under
    the id of its predecessor.  In identity mode the ids are those of the
    entities, and deleting by id removes exactly that id from the list,
    all other ids keeping their order. *)
Theorem X15_ids_after_a_deletion :
  (∀ (T : Type) (items : list (cell T)) (index : Z),
     0 ≤ index < Js.length items →
     ∃ items',
       deleteItem (NoFinder T) index items = Normal items' ∧
       Variants.wrongIds items = Z.of_nat <$> seq 0 (List.length items) ∧
       Variants.wrongIds items'
       = take (List.length items - 1) (Variants.wrongIds items) ∧
       ∀ k : nat, (Z.to_nat index ≤ k)%nat → items' !! k = items !! S k) ∧
  (∀ (l : list Item) (id : string),
     ∃ l',
       deleteItem identityMode id (defined <$> l) = Normal (defined <$> l') ∧
       Variants.identityIds (defined <$> l) = Normal (Item.id <$> l) ∧
       Variants.identityIds (defined <$> l')
       = Normal (List.filter (λ i, negb (String.eqb i id)) (Item.id <$> l))).
Proof.
  split.
  - intros T items index Hindex. rewrite deleteItem_index.
    rewrite decide_True by done. eexists. split; [done|].
    assert (Z.to_nat index < List.length items)%nat as Hlt
      by (unfold Js.length in *; lia).
    rewrite !wrongIds_seq, without_length by done.
    split; [done|]. split.
    + rewrite <- fmap_take, take_seq. do 2 f_equal. lia.
    + intros k Hk. rewrite without_lookup by done.
      by rewrite decide_False by lia.
  - intros l id. exists (others id l).
    rewrite deleteItem_identity, !identityIds_defined, others_ids. done.
Qed.

Lemma X15_ids_after_a_deletion_witness :
  0 ≤ 1 < Js.length (defined <$> INITIAL_ITEMS) ∧
  ∃ items',
    deleteItem (NoFinder string) 1 (defined <$> INITIAL_ITEMS) = Normal items' ∧
    Variants.wrongIds (defined <$> INITIAL_ITEMS) = [0; 1; 2; 3] ∧
    Variants.wrongIds items' = [0; 1; 2].
Proof.
  assert (0 ≤ 1 < Js.length (defined <$> INITIAL_ITEMS)) as H1
    by (vm_compute; split; [discriminate|reflexivity]).
  destruct X15_ids_after_a_deletion as [Hindex _].
  destruct (Hindex string (defined <$> INITIAL_ITEMS) 1 H1)
    as (items' & Hrun & Hids & Hids' & _).
  split; [exact H1|]. exists items'. split; [exact Hrun|].
  split; [exact Hids|]. rewrite Hids'. reflexivity.
Defined.

(** X16.  Recording and then viewing.  The entry just recorded is the
    first of the view.  Once five or more entries have been recorded, the
    view consists of the last five of them in reverse order and no longer
    depends on what the log held before. *)
Theorem X16_view_shows_the_latest_records
  (log : list HistoryEntry) (calls : list RecordCall) (call : RecordCall) :
  getRecentHistory (record call log) !! 0%nat
  = Some {| type := call_type call;
            message := call_message call;
            timestamp := call_now call;
            warning := call_isWarning call |} ∧
  ((5 ≤ List.length calls)%nat →
   getRecentHistory (recordAll calls log)
   = take 5 (List.rev (entriesOf calls)) ∧
   getRecentHistory (recordAll calls log)
   = getRecentHistory (recordAll calls []) ∧
   List.length (getRecentHistory (recordAll calls log)) = 5%nat).
Proof.
  split.
  - rewrite getRecentHistory_recent. unfold record, addHistoryEntry, recent.
    by rewrite rev_unit.
  - intros Hlen.
    assert (∀ log', getRecentHistory (recordAll calls log')
                    = take 5 (List.rev (entriesOf calls))) as Hview.
    { intros log'. rewrite getRecentHistory_recent, recordAll_app.
      fold (entriesOf calls). unfold recent. rewrite rev_app_distr.
      apply take_app_le. rewrite length_rev. unfold entriesOf.
      rewrite length_fmap. cbn. lia. }
    rewrite !Hview. split; [done|]. split; [done|].
    rewrite length_take, length_rev. unfold entriesOf.
    rewrite length_fmap. lia.
Qed.

Lemma X16_view_shows_the_latest_records_witness :
  (5 ≤ List.length sixCalls)%nat ∧
  getRecentHistory (recordAll sixCalls (recordAll sixCalls []))
  = getRecentHistory (recordAll sixCalls []).
Proof.
  assert (5 ≤ List.length sixCalls)%nat as Hlen by (vm_compute; repeat constructor).
  destruct (X16_view_shows_the_latest_records (recordAll sixCalls []) sixCalls
              {| call_now := "12:00:07"; call_type := "correct";
                 call_message := "record 7"; call_isWarning := false |})
    as [_ Hview].
  destruct (Hview Hlen) as (_ & Hsame & _).
  exact (conj Hlen Hsame).
Defined.



(** ** Sequences of user actions *)

Section Actions.

Lemma handleDragEnd_identity_any (l : list Item) (event : DragEndEvent string) :
  ∃ l' result,
    handleDragEnd identityMode (defined <$> l) event
    = Normal (defined <$> l', result).
Proof.
  destruct event as [a [|o]].
  - exists l, null. by rewrite handleDragEnd_null.
  - rewrite handleDragEnd_identity. case_decide; by eexists _, _.
Qed.

Lemma handleDragEnd_index_any {T} (items : list (cell T))
  (event : DragEndEvent Z) :
  ∃ items' result,
    handleDragEnd (NoFinder T) items event = Normal (items', result).
Proof.
  destruct event as [a [|o]].
  - exists items, null. by rewrite handleDragEnd_null.
  - rewrite handleDragEnd_index. case_decide; by eexists _, _.
Qed.

(** One action: no exception, no hole, at most one new entry, and only
    the collection of the action's own variant may change. *)
Lemma perform_step (action : Action) (st : AppRefactored.State) :
  holeFree st →
  ∃ st',
    perform action st = Normal st' ∧
    holeFree st' ∧
    (AppRefactored.history st' = AppRefactored.history st ∨
     ∃ entry, AppRefactored.history st'
              = AppRefactored.history st ++ [entry]) ∧
    match action with
    | WrongDrag _ _ | WrongDelete _ _ =>
        AppRefactored.generatedVariant st' = AppRefactored.generatedVariant st ∧
        AppRefactored.correctVariant st' = AppRefactored.correctVariant st
    | GeneratedDrag _ _ | GeneratedDelete _ _ | GeneratedAdd _ _ =>
        AppRefactored.wrongVariant st' = AppRefactored.wrongVariant st ∧
        AppRefactored.correctVariant st' = AppRefactored.correctVariant st
    | CorrectDrag _ _ | CorrectDelete _ _ =>
        AppRefactored.wrongVariant st' = AppRefactored.wrongVariant st ∧
        AppRefactored.generatedVariant st' = AppRefactored.generatedVariant st
    end.
Proof.
  destruct st as [wrong generated correct history].
  intros (g & c & Hg & Hc). cbn in Hg, Hc. subst generated correct.
  destruct action as [now event|now index|now event|now id|now tok
                     |now event|now id]; cbn [perform].
  - unfold AppRefactored.handleWrongDragEnd. cbn [AppRefactored.wrongVariant].
    destruct (handleDragEnd_index_any wrong event) as (items & [|r] & ->);
      cbn; eexists; (split; [done|]); (split; [by exists g, c|]);
      (split; [|done]); cbn; eauto.
  - unfold AppRefactored.handleWrongDelete. cbn [AppRefactored.wrongVariant].
    rewrite deleteItem_index. cbn. eexists. split; [done|].
    split; [by exists g, c|]. split; [|done]. cbn. eauto.
  - unfold AppRefactored.handleGeneratedDragEnd.
    cbn [AppRefactored.generatedVariant]. fold identityMode.
    destruct (handleDragEnd_identity_any g event) as (l' & [|r] & ->);
      cbn; eexists; (split; [done|]); (split; [by exists l', c|]);
      (split; [|done]); cbn; eauto.
  - unfold AppRefactored.handleGeneratedDelete.
    cbn [AppRefactored.generatedVariant]. rewrite find_defined.
    case_decide as Hfound; cbn [truthy].
    + cbn. eexists. split; [done|]. split; [by exists g, c|].
      split; [|done]. cbn. eauto.
    + destruct (indexOf_found g id Hfound) as (e & He & _).
      pose proof (indexOf_range g id).
      rewrite (index_defined g _ e) by (done || lia). cbn [truthy].
      fold identityMode. rewrite deleteItem_identity. cbn.
      eexists. split; [done|]. split; [by exists (others id g), c|].
      split; [|done]. cbn. eauto.
  - unfold AppRefactored.handleAddGeneratedItem. eexists. split; [done|].
    split.
    + eexists (g ++ [_]), c. cbn. unfold addItem. by rewrite fmap_app.
    + split; [|done]. cbn. eauto.
  - unfold AppRefactored.handleCorrectDragEnd.
    cbn [AppRefactored.correctVariant]. fold identityMode.
    destruct (handleDragEnd_identity_any c event) as (l' & [|r] & ->);
      cbn; eexists; (split; [done|]); (split; [by exists g, l'|]);
      (split; [|done]); cbn; eauto.
  - unfold AppRefactored.handleCorrectDelete.
    cbn [AppRefactored.correctVariant]. rewrite find_defined.
    case_decide as Hfound; cbn [truthy].
    + cbn. eexists. split; [done|]. split; [by exists g, c|].
      split; [|done]. cbn. eauto.
    + destruct (indexOf_found c id Hfound) as (e & He & _).
      pose proof (indexOf_range c id).
      rewrite (index_defined c _ e) by (done || lia). cbn [truthy].
      fold identityMode. rewrite deleteItem_identity. cbn.
      eexists. split; [done|]. split; [by exists g, (others id c)|].
      split; [|done]. cbn. eauto.
Qed.

End Actions.

(** X18.  The refactored application never throws.  Starting from a state
    whose identity-mode collections have no holes, every sequence of drag,
    delete and add callbacks runs to a normal result; the identity-mode
    collections still have no holes; the history is only ever appended to,
    by at most one entry per callback; and the view never shows more than
    [HISTORY_DISPLAY_LIMIT] entries. *)
Theorem X18_action_sequences_never_throw
  (actions : list Action) (st : AppRefactored.State) :
  holeFree st →
  ∃ st',
    performAll actions st = Normal st' ∧
    holeFree st' ∧
    AppRefactored.history st `prefix_of` AppRefactored.history st' ∧
    (List.length (AppRefactored.history st')
     ≤ List.length (AppRefactored.history st) + List.length actions)%nat ∧
    Z.of_nat (List.length (AppRefactored.recentHistory st'))
    ≤ HISTORY_DISPLAY_LIMIT UI_CONSTANTS.
Proof.
  revert st. induction actions as [|action actions IH]; intros st Hfree.
  - exists st. cbn. split; [done|]. split; [done|]. split; [done|].
    split; [lia|]. unfold AppRefactored.recentHistory.
    rewrite getRecentHistory_recent, recent_length. cbn. lia.
  - destruct (perform_step action st Hfree) as (st1 & Hrun & Hfree1 & Hhist & _).
    destruct (IH st1 Hfree1) as (st' & Hrun' & Hfree' & Hprefix & Hlen & Hview).
    exists st'. cbn [performAll]. rewrite Hrun. cbn.
    split; [done|]. split; [done|].
    destruct Hhist as [Heq|[entry Heq]]; rewrite Heq in *.
    + split; [done|]. split; [cbn; lia|done].
    + split; [|split; [|done]].
      * etrans; [|done]. by apply prefix_app_r.
      * rewrite length_app in Hlen. cbn in *. lia.
Qed.

Lemma X18_action_sequences_never_throw_witness :
  holeFree twoItemsState ∧
  ∃ st',
    performAll [ GeneratedDelete "12:00:01" "item-1";
                 GeneratedDrag "12:00:02"
                   {| active := "item-1"; over := object "item-2" |};
                 WrongDrag "12:00:03" {| active := 7; over := object 0 |};
                 CorrectDelete "12:00:04" "item-9" ] twoItemsState
    = Normal st' ∧
    holeFree st'.
Proof.
  assert (holeFree twoItemsState) as Hfree
    by (exists twoItems, twoItems; split; reflexivity).
  destruct (X18_action_sequences_never_throw
              [ GeneratedDelete "12:00:01" "item-1";
                GeneratedDrag "12:00:02"
                  {| active := "item-1"; over := object "item-2" |};
                WrongDrag "12:00:03" {| active := 7; over := object 0 |};
                CorrectDelete "12:00:04" "item-9" ] twoItemsState Hfree)
    as (st' & Hrun & Hfree' & _).
  split; [exact Hfree|]. exists st'. exact (conj Hrun Hfree').
Defined.

(** X19.  Each callback of the refactored application touches only the
    collection of its own variant: the index-mode callbacks leave both
    identity-mode collections as they are, and the callbacks of either
    identity variant leave the other two collections as they are. *)
Theorem X19_callbacks_leave_other_variants_alone
  (action : Action) (st : AppRefactored.State) :
  holeFree st →
  ∃ st',
    perform action st = Normal st' ∧
    match action with
    | WrongDrag _ _ | WrongDelete _ _ =>
        AppRefactored.generatedVariant st' = AppRefactored.generatedVariant st ∧
        AppRefactored.correctVariant st' = AppRefactored.correctVariant st
    | GeneratedDrag _ _ | GeneratedDelete _ _ | GeneratedAdd _ _ =>
        AppRefactored.wrongVariant st' = AppRefactored.wrongVariant st ∧
        AppRefactored.correctVariant st' = AppRefactored.correctVariant st
    | CorrectDrag _ _ | CorrectDelete _ _ =>
        AppRefactored.wrongVariant st' = AppRefactored.wrongVariant st ∧
        AppRefactored.generatedVariant st' = AppRefactored.generatedVariant st
    end.
Proof.
  intros Hfree.
  destruct (perform_step action st Hfree) as (st' & Hrun & _ & _ & Hframe).
  by exists st'.
Qed.

Lemma X19_callbacks_leave_other_variants_alone_witness :
  holeFree twoItemsState ∧
  ∃ st',
    perform (WrongDelete "12:00:01" 0) twoItemsState = Normal st' ∧
    AppRefactored.generatedVariant st'
    = AppRefactored.generatedVariant twoItemsState ∧
    AppRefactored.correctVariant st'
    = AppRefactored.correctVariant twoItemsState.
Proof.
  assert (holeFree twoItemsState) as Hfree
    by (exists twoItems, twoItems; split; reflexivity).
  destruct (X19_callbacks_leave_other_variants_alone
              (WrongDelete "12:00:01" 0) twoItemsState Hfree)
    as (st' & Hrun & Hframe).
  split; [exact Hfree|]. exists st'. exact (conj Hrun Hframe).
Defined.
